(** * aio: the event-loop nucleus ([aio/loop/pure.py], [aio/interfaces.py])

    A shallow embedding of [BaseEventLoop] and of the [Handle] record it
    schedules, together with the properties of one loop step.

    Conventions.
    - Python floats (clock readings, deadlines, delays) are exact rationals
      ([Q]); a deadline may also be minus infinity.
    - Python objects that are mutated through several references ([Handle])
      live in a store, a [list Handle] indexed by allocation order; a
      reference is an index into it.
    - Callables are names ([cbid]); what a callable does when the loop
      invokes it is a finite program over the loop's public interface
      ([prog]).
    - The calls the loop makes to its collaborators (scheduler, selector,
      exception handler) and to callbacks are recorded, in order, as a list
      of [event]s, which each function of the embedding returns along with
      its result.
    - Logging is left out, and so are the clock readings made only to log a
      duration ([MeasureElapsed], the [total_elapsed] of the last debug
      message). *)

From Stdlib Require Import QArith Qminmax String.
From stdpp Require Import base list option.

Local Open Scope nat_scope.

(** ** Values *)

Definition cbid := nat.
Definition hid := nat.
Definition loop_id := nat.

Inductive pyval :=
| VInt (n : nat)
| VStr (s : string).

(** [Mapping[str, Any]] *)
Definition mapping := list (string * pyval).

(** Numeric equality of optional rationals ([None] is Python's [None]). *)
Definition timeout_eq (a b : option Q) : Prop :=
  match a, b with
  | None, None => True
  | Some x, Some y => (x == y)%Q
  | _, _ => False
  end.

Definition Qltb (x y : Q) : bool := negb (Qle_bool y x).

(** ** [interfaces.Handle] *)

Record Handle := mkHandle {
  when : option Q;
  callback : cbid;
  args : list nat;
  cancelled : bool;
  context : mapping
}.

(** [Handle.cancel]: [self.cancelled = True] *)
Definition cancel (h : Handle) : Handle :=
  {| when := when h; callback := callback h; args := args h;
     cancelled := true; context := context h |}.

(** ** Exceptions

    Modelled from the spec: [aio.exceptions] is not among the sources; the
    spec singles [KeyboardCanceled] out as the interrupt-driven exception
    that is not an [Exception] ("Non-Exception ... escapes", "uniquely
    propagates out of step and run"). [Exc] stands for any [Exception]
    subclass, [BaseExc] for any other [BaseException]. *)

Inductive exn :=
| Exc (tag : nat)
| BaseExc (tag : nat)
| KeyboardCanceled.

(** [isinstance(err, Exception)] *)
Definition is_Exception (e : exn) : bool :=
  match e with
  | Exc _ => true
  | BaseExc _ | KeyboardCanceled => false
  end.

(** ** Collaborators: clock, scheduler, selector *)

(** [interfaces.Clock]: [now()] and [resolution()]. The clock is an oracle:
    [now_reading n] is what [now()] returns when it has been called [n]
    times before. *)
Record Clock := mkClock {
  now_reading : nat -> Q;
  resolution : Q
}.

(** A Python float that may be minus infinity (what [next_event] returns). *)
Inductive deadline :=
| NegInf
| At (t : Q).

(** [aio.components.scheduler.Scheduler] is not among the sources: the loop
    is written against its three methods, which are taken as parameters.
    The scheduler holds references to [Handle] objects and reads them
    through the store. *)
Class SchedulerOps (Sch : Type) := {
  enqueue : hid -> list Handle -> Sch -> Sch;
  pop_pending : Q -> list Handle -> Sch -> list hid * Sch;
  next_event : list Handle -> Sch -> option deadline * Sch
}.

(** What [select] returns: [(callback, fd, events)] *)
Definition fired := (cbid * nat * nat)%type.

(** [IOSelector]: the loop only calls [select]. [registered] tells whether
    any watch is registered; the loop never asks. *)
Class IOSelectorOps (Sel : Type) := {
  select : option Q -> Sel -> list fired * Sel;
  registered : Sel -> bool
}.

(** ** [contextvars]

    A [contextvars.Context]: the value of [aio.loop._priv._running_loop]
    ([None] when unset) and the other context variables. *)
Record Context := mkContext {
  _running_loop : option loop_id;
  cvars : list (nat * nat)
}.

Definition set_running_loop (v : option loop_id) (cv : Context) : Context :=
  {| _running_loop := v; cvars := cvars cv |}.

Definition set_cvar (x v : nat) (cv : Context) : Context :=
  {| _running_loop := _running_loop cv; cvars := (x, v) :: cvars cv |}.

Fixpoint assoc (x : nat) (l : list (nat * nat)) : option nat :=
  match l with
  | [] => None
  | (y, v) :: l' => if Nat.eqb x y then Some v else assoc x l'
  end.

Definition get_cvar (x : nat) (cv : Context) : option nat := assoc x (cvars cv).

(** ** Callback programs

    What a callable does when invoked: a finite tree of calls into the
    loop's public interface, each continuing with the value the call
    returned. *)
Inductive prog :=
| Return
| Raise (e : exn)
| CallSoon (target : cbid) (a : list nat) (ctx : option mapping) (k : hid -> prog)
| CallLater (timeout : Q) (target : cbid) (a : list nat) (ctx : option mapping)
            (k : hid -> prog)
| Cancel (h : hid) (k : prog)
| GetRunningLoop (k : option loop_id -> prog)
| ClockNow (k : Q -> prog)
| SetVar (x v : nat) (k : prog)
| GetVar (x : nat) (k : option nat -> prog)
| ReceiveResult (k : prog).

(** ** Trace of the loop's interactions

    [EvInvoke h] marks the point where [_invoke_handle] goes on to call the
    callback of handle [h], [EvSkip h] the point where it drops [h] as
    cancelled, [EvIO] the dispatch of a selector callback. [EvCall] carries
    the context the callable runs in. *)
Inductive event :=
| EvEnqueue (h : hid)
| EvPopPending (up_to : Q) (popped : list hid)
| EvSelect (timeout : option Q) (ready : list fired)
| EvSkip (h : hid)
| EvInvoke (h : hid)
| EvIO (f : fired)
| EvCall (cb : cbid) (a : list nat) (cv : Context)
| EvCancel (h : hid)
| EvRunningLoop (seen : option loop_id)
| EvSetVar (x v : nat)
| EvReport (e : exn) (cb : cbid) (kw : mapping).

(** ** The loop *)

Record Loop (Sch Sel : Type) := mkLoop {
  handles : list Handle;
  _scheduler : Sch;
  _selector : Sel;
  clock_reads : nat;
  thread_context : Context;
  received_fut : bool
}.

Arguments mkLoop {Sch Sel}.
Arguments handles {Sch Sel}.
Arguments _scheduler {Sch Sel}.
Arguments _selector {Sch Sel}.
Arguments clock_reads {Sch Sel}.
Arguments thread_context {Sch Sel}.
Arguments received_fut {Sch Sel}.

(** The outcome of [run]'s loop: the root future was received, an
    exception left [run], or the fuel of the model ran out. *)
Inductive run_result :=
| Received
| RunRaised (e : exn)
| OutOfFuel.

(** ** Reading a trace *)

(** The units of work a step dispatches *)
Inductive item :=
| Timer (h : hid)
| Io (f : fired).

(** The handles and selector callbacks that reached their dispatch point,
    in order (a skipped handle reached it too) *)
Fixpoint seen (tr : list event) : list item :=
  match tr with
  | [] => []
  | EvInvoke h :: tr' => Timer h :: seen tr'
  | EvSkip h :: tr' => Timer h :: seen tr'
  | EvIO f :: tr' => Io f :: seen tr'
  | _ :: tr' => seen tr'
  end.

(** Calls to the scheduler's [pop_pending] and to [select] *)
Definition is_outer (ev : event) : bool :=
  match ev with
  | EvPopPending _ _ | EvSelect _ _ => true
  | _ => false
  end.

Definition is_pop (ev : event) : bool :=
  match ev with
  | EvPopPending _ _ => true
  | _ => false
  end.

Definition is_select (ev : event) : bool :=
  match ev with
  | EvSelect _ _ => true
  | _ => false
  end.

(** What follows the first event satisfying [p] *)
Fixpoint after (p : event -> bool) (tr : list event) : list event :=
  match tr with
  | [] => []
  | ev :: tr' => if p ev then tr' else after p tr'
  end.

(** The events of a step that follow its post-select [pop_pending] *)
Definition late_events (tr : list event) : list event :=
  after is_pop (after is_select tr).

(** Writes to context variables, latest first *)
Fixpoint writes (tr : list event) : list (nat * nat) :=
  match tr with
  | [] => []
  | EvSetVar x v :: tr' => writes tr' ++ [(x, v)]
  | _ :: tr' => writes tr'
  end.

(** Calls of the exception handler *)
Fixpoint reports (tr : list event) : list (exn * cbid * mapping) :=
  match tr with
  | [] => []
  | EvReport e cb kw :: tr' => (e, cb, kw) :: reports tr'
  | _ :: tr' => reports tr'
  end.

Definition is_cancelled (store : list Handle) (h : hid) : bool :=
  match store !! h with
  | Some hd => cancelled hd
  | None => false
  end.

(** ** The select budget, in the words of the spec *)

(** [max(0, next_event - now)] *)
Definition max0_minus (next_event_at : deadline) (t : Q) : Q :=
  match next_event_at with
  | NegInf => 0
  | At d => Qmax 0 (d - t)
  end.

(** Spec 4.7, step 3, as written: [w = 0] if [early] is non-empty; else
    [w = None] if [next_event()] is [None] and no I/O is registered; else
    [w = max(0, next_event - now)]. *)
Definition budget_as_specified (early : list hid) (next_event_at : option deadline)
           (io_registered : bool) (t : Q) (w : option Q) : Prop :=
  if 0 <? length early then timeout_eq w (Some 0%Q)
  else match next_event_at, io_registered with
       | None, false => w = None
       | _, _ => exists d, next_event_at = Some d /\ timeout_eq w (Some (max0_minus d t))
       end.

(** What the code computes: the registrations of the selector play no part. *)
Definition budget (early : list hid) (next_event_at : option deadline) (t : Q)
  : option Q :=
  if 0 <? length early then Some 0%Q
  else match next_event_at with
       | None => None
       | Some d => Some (max0_minus d t)
       end.

(** ** A scheduler

    Modelled from the spec: [aio.components.scheduler.Scheduler] is not
    among the sources. Spec 4.2: a handle with no deadline is treated as
    deadline minus infinity; entries are kept in a min-heap keyed by
    (deadline, sequence), the sequence number being assigned at insertion;
    [pop_pending(t)] removes and returns, in heap order, every entry whose
    deadline is at most [t], dropping cancelled entries silently;
    [next_event()] returns the deadline of the minimum non-cancelled entry,
    discarding cancelled entries at the top. The heap is kept as the list
    of its entries in heap order. *)
Module HeapScheduler.

Record entry := mkEntry {
  e_when : deadline;
  e_seq : nat;
  e_handle : hid
}.

Record t := mk {
  queue : list entry;
  counter : nat
}.

Definition empty : t := mk [] 0.

Definition deadline_leb (a b : deadline) : bool :=
  match a, b with
  | NegInf, _ => true
  | At _, NegInf => false
  | At x, At y => Qle_bool x y
  end.

(** (deadline, sequence) order *)
Definition key_leb (a b : entry) : bool :=
  if negb (deadline_leb (e_when b) (e_when a)) then true
  else if negb (deadline_leb (e_when a) (e_when b)) then false
  else e_seq a <=? e_seq b.

Fixpoint insert (e : entry) (q : list entry) : list entry :=
  match q with
  | [] => [e]
  | x :: q' => if key_leb x e then x :: insert e q' else e :: x :: q'
  end.

Definition deadline_of (w : option Q) : deadline :=
  match w with
  | None => NegInf
  | Some d => At d
  end.

Definition heap_enqueue (h : hid) (store : list Handle) (s : t) : t :=
  match store !! h with
  | Some hd => mk (insert (mkEntry (deadline_of (when hd)) (counter s) h) (queue s))
                  (S (counter s))
  | None => s
  end.

Fixpoint pop (up_to : Q) (store : list Handle) (q : list entry)
  : list hid * list entry :=
  match q with
  | [] => ([], [])
  | e :: q' =>
      if deadline_leb (e_when e) (At up_to) then
        let '(hs, rest) := pop up_to store q' in
        (if is_cancelled store (e_handle e) then hs else e_handle e :: hs, rest)
      else ([], q)
  end.

Definition heap_pop_pending (up_to : Q) (store : list Handle) (s : t) : list hid * t :=
  let '(hs, rest) := pop up_to store (queue s) in (hs, mk rest (counter s)).

Fixpoint top (store : list Handle) (q : list entry) : option deadline * list entry :=
  match q with
  | [] => (None, [])
  | e :: q' =>
      if is_cancelled store (e_handle e) then top store q'
      else (Some (e_when e), q)
  end.

Definition heap_next_event (store : list Handle) (s : t) : option deadline * t :=
  let '(d, rest) := top store (queue s) in (d, mk rest (counter s)).

(** The handles the scheduler holds *)
Definition queued (s : t) : list hid := map e_handle (queue s).

(** Every handle the scheduler holds is an object of the store. *)
Definition wf {Sel : Type} (st : Loop t Sel) : Prop :=
  forall x, In x (queued (_scheduler st)) -> x < length (handles st).

(** What the calls made while dispatching do to the queue: they only add to
    it, and what they enqueue is in it afterwards. *)
Definition grows {Sel : Type} (st st' : Loop t Sel) (tr : list event) : Prop :=
  (wf st -> wf st') /\
  (forall x, In x (queued (_scheduler st)) -> In x (queued (_scheduler st'))) /\
  (forall x, In (EvEnqueue x) tr -> In x (queued (_scheduler st'))).

End HeapScheduler.

#[export] Instance heap_scheduler : SchedulerOps HeapScheduler.t := {|
  enqueue := HeapScheduler.heap_enqueue;
  pop_pending := HeapScheduler.heap_pop_pending;
  next_event := HeapScheduler.heap_next_event
|}.

(** ** A selector

    Modelled from the spec: no selector backend is among the sources. Spec
    4.3: a registration is (fd, event mask, callback); [select] returns one
    entry per fired (fd, bit) pairing. What the operating system reports at
    each call is an oracle, [ready]. *)
Module PollSelector.

Record t := mk {
  watches : list (nat * nat * cbid);
  ready : list (list (nat * nat))
}.

Definition fired_for (w : nat * nat * cbid) (r : nat * nat) : list fired :=
  let '(fd, mask, cb) := w in
  let '(rfd, events) := r in
  if Nat.eqb fd rfd && negb (Nat.eqb (Nat.land mask events) 0)
  then [(cb, fd, Nat.land mask events)] else [].

Definition poll_select (timeout : option Q) (s : t) : list fired * t :=
  match ready s with
  | [] => ([], s)
  | r :: rest =>
      (flat_map (fun x => flat_map (fun w => fired_for w x) (watches s)) r,
       mk (watches s) rest)
  end.

Definition has_watches (s : t) : bool :=
  match watches s with
  | [] => false
  | _ :: _ => true
  end.

End PollSelector.

#[export] Instance poll_selector : IOSelectorOps PollSelector.t := {|
  select := PollSelector.poll_select;
  registered := PollSelector.has_watches
|}.

(** ** [BaseEventLoop.create_networking]

    The part of the loop the method touches: [_cached_networking] and the
    factory. The [n]-th call of [_networking_factory] builds the instance
    [factory n]; entering and leaving the factory's context manager are
    counted. *)
Module Net.

Definition networking := nat.

Record state := mk {
  _cached_networking : option networking;
  factory_entered : nat;
  factory_exited : nat
}.

(** Where the generator is suspended: at the [yield] of the cached branch,
    or at the [yield] inside [with self._networking_factory()] *)
Inductive suspended :=
| AtCached
| AtFactory.

Section Factory.
Variable factory : nat -> networking.

(** [create_networking] up to its [yield] *)
Definition enter (l : state) : networking * suspended * state :=
  match _cached_networking l with
  | Some n => (n, AtCached, l)
  | None =>
      let n := factory (factory_entered l) in
      (n, AtFactory, mk (Some n) (S (factory_entered l)) (factory_exited l))
  end.

(** [create_networking] after its [yield] *)
Definition leave (g : suspended) (l : state) : state :=
  match g with
  | AtCached => l
  | AtFactory => mk None (factory_entered l) (S (factory_exited l))
  end.

(** Uses of [create_networking] by other tasks while one context is open:
    each either enters or leaves a context taken from the cache. *)
Inductive use :=
| Enter
| Leave.

Fixpoint uses (us : list use) (l : state) : list networking * state :=
  match us with
  | [] => ([], l)
  | Enter :: us' =>
      let '(n, _, l1) := enter l in
      let '(ns, l2) := uses us' l1 in (n :: ns, l2)
  | Leave :: us' => uses us' (leave AtCached l)
  end.

(** Tasks entering and leaving [create_networking] in any order: [Open]
    enters a new context, [Close i] leaves the [i]-th of the contexts that
    are open ([opened] lists where each one's generator is suspended). *)
Inductive op :=
| Open
| Close (i : nat).

Fixpoint drive (ops : list op) (opened : list suspended) (l : state)
  : list suspended * state :=
  match ops with
  | [] => (opened, l)
  | Open :: ops' =>
      let '(_, g, l1) := enter l in drive ops' (opened ++ [g]) l1
  | Close i :: ops' =>
      match opened !! i with
      | Some g => drive ops' (delete i opened) (leave g l)
      | None => drive ops' opened l
      end
  end.

(** The open contexts that hold the factory's context manager *)
Fixpoint owners (opened : list suspended) : nat :=
  match opened with
  | [] => 0
  | AtFactory :: opened' => S (owners opened')
  | AtCached :: opened' => owners opened'
  end.

(** At most one factory context is open, and one is exactly when an
    instance is cached: the last the factory built. *)
Definition balanced (opened : list suspended) (l : state) : Prop :=
  factory_entered l = factory_exited l + owners opened /\
  match _cached_networking l with
  | Some n => owners opened = 1 /\ n = factory (pred (factory_entered l))
  | None => owners opened = 0
  end.

End Factory.
End Net.

(** ** The claims of the spec that the code does not meet, as written *)

(** Timeouts passed to [select] *)
Fixpoint select_timeouts (tr : list event) : list (option Q) :=
  match tr with
  | [] => []
  | EvSelect w _ :: tr' => w :: select_timeouts tr'
  | _ :: tr' => select_timeouts tr'
  end.

(** Spec 5: a handle enqueued from inside a callback never runs in the
    same step. [tr] is the trace of one step. *)
Definition call_soon_deferred (tr : list event) : Prop :=
  forall x, In (EvEnqueue x) tr -> ~ In (EvInvoke x) tr.

(** ** Sample loops *)

(** A clock that reads 0, 1, 2, ... seconds, with a millisecond of
    resolution *)
Definition sample_clock : Clock :=
  mkClock (fun n => inject_Z (Z.of_nat n)) (1 # 1000).

(** What the sample callables do:
    1 calls [call_soon] on 2; 2 returns; 3 cancels handle 1;
    4 raises an [Exception]; 5 raises [KeyboardCanceled];
    6 writes a context variable and looks up the running loop. *)
Definition sample_body (cb : cbid) (a : list nat) : prog :=
  match cb with
  | 1 => CallSoon 2 [] None (fun _ => Return)
  | 3 => Cancel 1 Return
  | 4 => Raise (Exc 0)
  | 5 => Raise KeyboardCanceled
  | 6 => SetVar 0 42 (GetRunningLoop (fun _ => Return))
  | _ => Return
  end.

Definition sample_loop_id : loop_id := 9.

(** A loop with nothing scheduled and nothing watched *)
Definition fresh_loop : Loop HeapScheduler.t PollSelector.t :=
  mkLoop [] HeapScheduler.empty (PollSelector.mk [] []) 0 (mkContext None []) false.

(** A loop whose scheduler holds the handles [hs], none with a deadline, in
    the order [call_soon] created them *)
Definition queued_loop (hs : list Handle) : Loop HeapScheduler.t PollSelector.t :=
  mkLoop hs
         (HeapScheduler.mk (imap (fun i _ => HeapScheduler.mkEntry NegInf i i) hs)
                           (length hs))
         (PollSelector.mk [] []) 0 (mkContext None []) false.

(** After [call_soon(cb1)]: [cb1] calls [call_soon(cb2)] *)
Definition soon_loop := queued_loop [mkHandle None 1 [] false []].

(** After [call_later(1.5, cb1)] at time 0 *)
Definition late_loop : Loop HeapScheduler.t PollSelector.t :=
  mkLoop [mkHandle (Some (3 # 2)) 1 [] false []]
         (HeapScheduler.mk [HeapScheduler.mkEntry (At (3 # 2)) 0 0] 1)
         (PollSelector.mk [] []) 1 (mkContext None []) false.

(** After [call_soon(cb3)] and [call_soon(cb2)]: [cb3] cancels the second
    handle *)
Definition cancelling_loop :=
  queued_loop [mkHandle None 3 [] false []; mkHandle None 2 [] false []].

(** A handle cancelled before the step *)
Definition cancelled_loop := queued_loop [mkHandle None 2 [] true []].

(** After [call_soon(cb4, context={"task": 7})] and [call_soon(cb2)]: [cb4]
    raises an [Exception] *)
Definition raising_loop :=
  queued_loop [mkHandle None 4 [] false [("task"%string, VInt 7)];
               mkHandle None 2 [] false []].

(** After [call_soon(cb5)] and [call_soon(cb2)]: [cb5] raises
    [KeyboardCanceled] *)
Definition interrupted_loop :=
  queued_loop [mkHandle None 5 [] false []; mkHandle None 2 [] false []].

(** After [call_soon(cb6)] twice *)
Definition writing_loop :=
  queued_loop [mkHandle None 6 [] false []; mkHandle None 6 [] false []].

(** After [call_soon(cb4, context={"task": 7})], with a watch of [cb4] on
    fd 3 that is ready: [cb4] raises an [Exception] both times *)
Definition failing_io_loop : Loop HeapScheduler.t PollSelector.t :=
  mkLoop [mkHandle None 4 [] false [("task"%string, VInt 7)]]
         (HeapScheduler.mk [HeapScheduler.mkEntry NegInf 0 0] 1)
         (PollSelector.mk [(3, 1, 4)] [[(3, 1)]]) 0 (mkContext None []) false.

(** A loop with nothing scheduled and one watch on fd 3 *)
Definition watching_loop : Loop HeapScheduler.t PollSelector.t :=
  mkLoop [] HeapScheduler.empty (PollSelector.mk [(3, 1, 2)] []) 0
         (mkContext None []) false.

(** ** [_report_loop_callback_error]

    A logger is the context bound to it; a log call yields a record: the
    level, the message, the bound context and the keywords of the call.
    [task] and [future] are names of objects; an object is true, [None] is
    false. *)
Inductive level :=
| Warning
| Error.

Inductive logval :=
| LNone
| LVal (v : pyval)
| LCallable (cb : cbid)
| LTask (t : nat)
| LFuture (f : nat)
| LExc (e : exn).

Inductive message :=
| MsgNotException
| MsgCallback (cb : option cbid)
| MsgTask (t : nat)
| MsgFuture (f : nat).

Definition log_context := list (string * logval).

Record log_record := mkLog {
  lvl : level;
  msg : message;
  bound : log_context;
  keywords : log_context
}.

Definition callable_or_none (cb : option cbid) : logval :=
  match cb with
  | Some c => LCallable c
  | None => LNone
  end.

(** [_report_loop_callback_error(exc, cb, task, future, /, logger,
    **context)]: the records it logs, in order. *)
Definition _report_loop_callback_error (exc : exn) (cb : option cbid)
           (task future : option nat) (logger : log_context) (context : log_context)
  : list log_record :=
  let exc_info := ("exc_info"%string, LExc exc) in
  let logger := logger ++ context in
  let logger := match cb with
                | Some c => logger ++ [("callback"%string, LCallable c)]
                | None => logger
                end in
  let warned :=
    if is_Exception exc then []
    else [mkLog Warning MsgNotException logger [exc_info]] in
  match task, future with
  | None, None =>
      warned ++ [mkLog Error (MsgCallback cb) logger [exc_info]]
  | Some t, _ =>
      warned ++ [mkLog Error (MsgTask t) logger [("task"%string, LTask t); exc_info]]
  | None, Some f =>
      warned ++ [mkLog Error (MsgFuture f) logger
                       [("callback"%string, callable_or_none cb);
                        ("future"%string, LFuture f); exc_info]]
  end.

(** The handler [__init__] installs when none is given,
    [partial(_report_loop_callback_error, logger=self._logger)], called as
    [_invoke_callback_within_context] calls it:
    [handler(err, cb=callback, **callback_context)]. [cb], [task] and
    [future] are positional-only parameters, so the keyword [cb] goes to
    [**context] and the three keep their default, [None]. *)
Definition default_exception_handler (logger : log_context) (err : exn)
           (callback : cbid) (callback_context : mapping) : list log_record :=
  _report_loop_callback_error err None None None logger
    (("cb"%string, LCallable callback)
       :: map (fun kv => (kv.1, LVal kv.2)) callback_context).

Definition is_error (r : log_record) : bool :=
  match lvl r with
  | Error => true
  | Warning => false
  end.

(** ** What a trace says was called *)

(** The callables called, with their arguments *)
Fixpoint calls (tr : list event) : list (cbid * list nat) :=
  match tr with
  | [] => []
  | EvCall cb a _ :: tr' => (cb, a) :: calls tr'
  | _ :: tr' => calls tr'
  end.

(** The handles and selector callbacks that were invoked (a skipped handle
    is not) *)
Fixpoint invoked (tr : list event) : list item :=
  match tr with
  | [] => []
  | EvInvoke h :: tr' => Timer h :: invoked tr'
  | EvIO f :: tr' => Io f :: invoked tr'
  | _ :: tr' => invoked tr'
  end.

(** What invoking an item calls: [handle.callback] on [handle.args], or
    [callback(fd, events)] *)
Definition target (store : list Handle) (it : item) : option (cbid * list nat) :=
  match it with
  | Timer h => (fun hd => (callback hd, args hd)) <$> store !! h
  | Io (cb, fd, events) => Some (cb, [fd; events])
  end.

(** The handles passed to the scheduler's [enqueue] *)
Fixpoint enqueued (tr : list event) : list hid :=
  match tr with
  | [] => []
  | EvEnqueue h :: tr' => h :: enqueued tr'
  | _ :: tr' => enqueued tr'
  end.

(** A handle as it was, but for a [cancel()] *)
Definition same_but_cancelled (hd hd' : Handle) : Prop :=
  when hd' = when hd /\ callback hd' = callback hd /\ args hd' = args hd /\
  context hd' = context hd /\ (cancelled hd = true -> cancelled hd' = true).

(** ** The loop's methods *)

Section EventLoop.
Context {Sch Sel : Type} `{SchedulerOps Sch} `{IOSelectorOps Sel}.

(** [self._clock], what each callable does, and [self] *)
Variable _clock : Clock.
Variable body : cbid -> list nat -> prog.
Variable self : loop_id.

Abbreviation Loop := (Loop Sch Sel).

(** What a call made while dispatching yields: the context and the loop
    after it, the events it produced, and the exception it raised, if any. *)
Definition outcome := (Context * Loop * list event * option exn)%type.

(** Events that happened before [x] *)
Definition emit (tr : list event) (x : outcome) : outcome :=
  let '(cv, st, tr', r) := x in (cv, st, tr ++ tr', r).

(** Sequencing: an exception raised by [x] leaves without running [f]. *)
Definition and_then (x : outcome) (f : Context -> Loop -> outcome) : outcome :=
  let '(cv, st, tr, r) := x in
  match r with
  | Some e => (cv, st, tr, Some e)
  | None => emit tr (f cv st)
  end.

(** [self._clock.now()] *)
Definition now (st : Loop) : Q * Loop :=
  (now_reading _clock (clock_reads st),
   mkLoop (handles st) (_scheduler st) (_selector st) (S (clock_reads st))
          (thread_context st) (received_fut st)).

(** [handle = Handle(...)]: a new object, referenced by its index. *)
Definition new_handle (h : Handle) (st : Loop) : hid * Loop :=
  (length (handles st),
   mkLoop (handles st ++ [h]) (_scheduler st) (_selector st) (clock_reads st)
          (thread_context st) (received_fut st)).

(** [self._scheduler.enqueue(handle)] *)
Definition scheduler_enqueue (h : hid) (st : Loop) : Loop * list event :=
  (mkLoop (handles st) (enqueue h (handles st) (_scheduler st)) (_selector st)
          (clock_reads st) (thread_context st) (received_fut st),
   [EvEnqueue h]).

(** [self._scheduler.pop_pending(up_to)] *)
Definition scheduler_pop_pending (up_to : Q) (st : Loop) : list hid * Loop * list event :=
  let '(popped, sch) := pop_pending up_to (handles st) (_scheduler st) in
  (popped,
   mkLoop (handles st) sch (_selector st) (clock_reads st)
          (thread_context st) (received_fut st),
   [EvPopPending up_to popped]).

(** [self._scheduler.next_event()] *)
Definition scheduler_next_event (st : Loop) : option deadline * Loop :=
  let '(d, sch) := next_event (handles st) (_scheduler st) in
  (d, mkLoop (handles st) sch (_selector st) (clock_reads st)
             (thread_context st) (received_fut st)).

(** [self._selector.select(wait_events)] *)
Definition selector_select (wait_events : option Q) (st : Loop)
  : list fired * Loop * list event :=
  let '(cbs, sel) := select wait_events (_selector st) in
  (cbs,
   mkLoop (handles st) (_scheduler st) sel (clock_reads st)
          (thread_context st) (received_fut st),
   [EvSelect wait_events cbs]).

(** [handle.cancel()] on the object [h] refers to *)
Definition cancel_handle (h : hid) (st : Loop) : Loop * list event :=
  match handles st !! h with
  | Some hd =>
      (mkLoop (<[h := cancel hd]> (handles st)) (_scheduler st) (_selector st)
              (clock_reads st) (thread_context st) (received_fut st),
       [EvCancel h])
  | None => (st, [])
  end.

(** [received_fut = fut] in [run]'s [receive_result] *)
Definition receive_result (st : Loop) : Loop :=
  mkLoop (handles st) (_scheduler st) (_selector st) (clock_reads st)
         (thread_context st) true.

(** [context or {}] *)
Definition or_empty (ctx : option mapping) : mapping :=
  match ctx with
  | Some m => m
  | None => []
  end.

(** [BaseEventLoop.call_soon] *)
Definition call_soon (target : cbid) (a : list nat) (ctx : option mapping)
           (st : Loop) : hid * Loop * list event :=
  let '(handle, st) := new_handle (mkHandle None target a false (or_empty ctx)) st in
  let '(st, tr) := scheduler_enqueue handle st in
  (handle, st, tr).

(** [BaseEventLoop.call_later] *)
Definition call_later (timeout : Q) (target : cbid) (a : list nat)
           (ctx : option mapping) (st : Loop) : hid * Loop * list event :=
  if Qeq_bool timeout 0 then call_soon target a ctx st
  else
    let '(t, st) := now st in
    let call_at := (t + timeout)%Q in
    let '(handle, st) :=
      new_handle (mkHandle (Some call_at) target a false (or_empty ctx)) st in
    let '(st, tr) := scheduler_enqueue handle st in
    (handle, st, tr).

(** Running a callable's program inside the context [cv]. *)
Fixpoint exec (p : prog) (cv : Context) (st : Loop) : outcome :=
  match p with
  | Return => (cv, st, [], None)
  | Raise e => (cv, st, [], Some e)
  | CallSoon target a ctx k =>
      let '(h, st, tr) := call_soon target a ctx st in emit tr (exec (k h) cv st)
  | CallLater timeout target a ctx k =>
      let '(h, st, tr) := call_later timeout target a ctx st in emit tr (exec (k h) cv st)
  | Cancel h k =>
      let '(st, tr) := cancel_handle h st in emit tr (exec k cv st)
  | GetRunningLoop k =>
      emit [EvRunningLoop (_running_loop cv)] (exec (k (_running_loop cv)) cv st)
  | ClockNow k => let '(t, st) := now st in exec (k t) cv st
  | SetVar x v k => emit [EvSetVar x v] (exec k (set_cvar x v cv) st)
  | GetVar x k => exec (k (get_cvar x cv)) cv st
  | ReceiveResult k => exec k cv (receive_result st)
  end.

(** [self._exception_handler(err, cb=callback, **callback_context)]: the
    handler is a collaborator that returns [None]; its call is recorded. *)
Definition _exception_handler (err : exn) (cb : cbid) (callback_context : mapping)
  : list event :=
  [EvReport err cb callback_context].

(** [BaseEventLoop._invoke_callback_within_context] *)
Definition _invoke_callback_within_context (callback : cbid) (a : list nat)
           (callback_context : mapping) (cv : Context) (st : Loop) : outcome :=
  let token := _running_loop cv in
  let cv := set_running_loop (Some self) cv in
  let '(cv', st, tr, r) := exec (body callback a) cv st in
  let tr := EvCall callback a cv :: tr in
  match r with
  | None => (set_running_loop token cv', st, tr, None)
  | Some err =>
      let tr := tr ++ _exception_handler err callback callback_context in
      if is_Exception err then (set_running_loop token cv', st, tr, None)
      else (set_running_loop token cv', st, tr, Some err)
  end.

(** [BaseEventLoop._invoke_callback]: [cv_context.run(...)] runs the call
    with [cv_context] as the current context, so what the call writes to
    context variables stays in [cv_context]. *)
Definition _invoke_callback (cv_context : Context) (callback : cbid) (a : list nat)
           (callback_context : mapping) (st : Loop) : outcome :=
  _invoke_callback_within_context callback a callback_context cv_context st.

(** [BaseEventLoop._invoke_handle]. In Python a reference always designates
    an object; a reference to no object is dropped like a cancelled
    handle. *)
Definition _invoke_handle (cv_context : Context) (handle : hid) (st : Loop) : outcome :=
  match handles st !! handle with
  | Some h =>
      if cancelled h then (cv_context, st, [EvSkip handle], None)
      else emit [EvInvoke handle]
                (_invoke_callback cv_context (callback h) (args h) [] st)
  | None => (cv_context, st, [EvSkip handle], None)
  end.

(** [for handle in ...: self._invoke_handle(cv_context, handle)] *)
Fixpoint invoke_handles (hs : list hid) (cv_context : Context) (st : Loop) : outcome :=
  match hs with
  | [] => (cv_context, st, [], None)
  | handle :: rest =>
      and_then (_invoke_handle cv_context handle st) (invoke_handles rest)
  end.

Definition io_context (fd events : nat) : mapping :=
  [("place", VStr "IO-callback"); ("fd", VInt fd); ("events", VInt events)]%string.

(** [for callback, fd, events in selector_callbacks: ...] *)
Fixpoint invoke_io (cbs : list fired) (cv_context : Context) (st : Loop) : outcome :=
  match cbs with
  | [] => (cv_context, st, [], None)
  | (callback, fd, events) :: rest =>
      and_then
        (emit [EvIO (callback, fd, events)]
           (_invoke_callback cv_context callback [fd; events] (io_context fd events) st))
        (invoke_io rest)
  end.

(** [next_event_at - self._clock.now()], then [if wait_events < 0:
    wait_events = 0]; minus infinity less anything is minus infinity. *)
Definition clamp_wait (next_event_at : deadline) (t : Q) : Q :=
  match next_event_at with
  | NegInf => 0
  | At d => let wait_events := (d - t)%Q in
            if Qltb wait_events 0 then 0%Q else wait_events
  end.

(** The [if]/[elif]/[else] of [run_step] that computes [wait_events] *)
Definition compute_wait (early_callbacks : list hid) (next_event_at : option deadline)
           (st : Loop) : option Q * Loop :=
  if 0 <? length early_callbacks then (Some 0%Q, st)
  else match next_event_at with
       | None => (None, st)
       | Some d => let '(t, st) := now st in (Some (clamp_wait d t), st)
       end.

(** What [run_step] gets from the scheduler before it selects, and how many
    times it has read the clock when [select] returns *)
Definition step_early (st : Loop) : list hid * Sch :=
  pop_pending (now_reading _clock (clock_reads st) + resolution _clock)%Q
              (handles st) (_scheduler st).

Definition step_next_event (st : Loop) : option deadline * Sch :=
  next_event (handles st) (step_early st).2.

Definition reads_before_select (st : Loop) : nat :=
  if 0 <? length (step_early st).1 then 1
  else match (step_next_event st).1 with
       | None => 1
       | Some _ => 2
       end.

(** [contextvars.copy_context()] *)
Definition copy_context (st : Loop) : Context := thread_context st.

(** The late phase of [run_step]: pop, then invoke. *)
Definition late_phase (end_at : Q) (cv_context : Context) (st : Loop) : outcome :=
  let '(late_callbacks, st, tr) := scheduler_pop_pending end_at st in
  emit tr (invoke_handles late_callbacks cv_context st).

(** The three dispatch loops of [run_step], from the early batch on. *)
Definition dispatch (early_callbacks : list hid) (selector_callbacks : list fired)
           (end_at : Q) (cv_context : Context) (st : Loop) : outcome :=
  and_then (invoke_handles early_callbacks cv_context st)
    (fun cv st => and_then (invoke_io selector_callbacks cv st) (late_phase end_at)).

(** [BaseEventLoop.run_step] *)
Definition run_step (st : Loop) : Loop * list event * option exn :=
  let '(at_start, st) := now st in
  let clock_resolution := resolution _clock in
  let '(early_callbacks, st, tr_pop) :=
    scheduler_pop_pending (at_start + clock_resolution)%Q st in
  let '(next_event_at, st) := scheduler_next_event st in
  let '(wait_events, st) := compute_wait early_callbacks next_event_at st in
  let '(selector_callbacks, st, tr_select) := selector_select wait_events st in
  let '(after_select, st) := now st in
  let end_at := (after_select + clock_resolution)%Q in
  let cv_context := copy_context st in
  let '(_, st, tr, r) := dispatch early_callbacks selector_callbacks end_at cv_context st in
  (st, tr_pop ++ tr_select ++ tr, r).

(** The [for _ in count()] loop of [BaseEventLoop.run]: [run_step] until
    [received_fut] is set; [except KeyboardCanceled: raise] re-raises and
    nothing catches the other exceptions. The root task ([aio.future], not
    among the sources) is whatever is scheduled in [st]; [received_fut] is
    set by the callable that stands for [receive_result]. This is the loop
    only: what follows it, [received_fut.result()], which raises the root
    task's error, is not part of it, and neither is an interrupt that the
    signal handler raises outside a callback. *)
Fixpoint run (fuel : nat) (st : Loop) : Loop * list event * run_result :=
  match fuel with
  | O => (st, [], OutOfFuel)
  | S fuel =>
      match run_step st with
      | (st, tr, Some e) => (st, tr, RunRaised e)
      | (st, tr, None) =>
          if received_fut st then (st, tr, Received)
          else let '(st', tr', res) := run fuel st in (st', tr ++ tr', res)
      end
  end.

(** ** How a call changes the store

    [evolves st st' tr]: the thread's own context is untouched, the store
    only grows, a cancelled handle stays cancelled, a handle whose [cancel]
    is in [tr] is cancelled afterwards, and a handle enqueued in [tr] was
    created during the call. *)
Definition evolves (st st' : Loop) (tr : list event) : Prop :=
  thread_context st' = thread_context st /\
  length (handles st) <= length (handles st') /\
  (forall h, is_cancelled (handles st) h = true ->
             is_cancelled (handles st') h = true) /\
  (forall h, In (EvCancel h) tr -> is_cancelled (handles st') h = true) /\
  (forall x, In (EvEnqueue x) tr ->
             length (handles st) <= x < length (handles st')).

(** Events a callable's own program produces *)
Definition is_inner (ev : event) : bool :=
  match ev with
  | EvEnqueue _ | EvCancel _ | EvRunningLoop _ | EvSetVar _ _ => true
  | _ => false
  end.

(** Every callable runs in the context made of the snapshot's variables and
    the writes made so far, with the running loop set to [self]. *)
Fixpoint calls_ok (vars : list (nat * nat)) (tr : list event) : Prop :=
  match tr with
  | [] => True
  | EvCall _ _ c :: tr' => c = mkContext (Some self) vars /\ calls_ok vars tr'
  | EvSetVar x v :: tr' => calls_ok ((x, v) :: vars) tr'
  | _ :: tr' => calls_ok vars tr'
  end.

(** No [EvInvoke h] once [h] is cancelled; [armed] tells whether it is
    cancelled already. *)
Fixpoint guarded (h : hid) (armed : bool) (tr : list event) : Prop :=
  match tr with
  | [] => True
  | EvCancel h' :: tr' => guarded h (armed || Nat.eqb h' h) tr'
  | EvInvoke h' :: tr' => (armed = true -> h' <> h) /\ guarded h armed tr'
  | _ :: tr' => guarded h armed tr'
  end.

Definition armed_after (h : hid) (armed : bool) (tr : list event) : bool :=
  armed || existsb (fun ev => match ev with
                              | EvCancel h' => Nat.eqb h' h
                              | _ => false
                              end) tr.

(** A report of an exception that is not an [Exception] ends the trace and
    is what the call raises; with no such report the call returns. *)
Fixpoint unwinds (tr : list event) (r : option exn) : Prop :=
  match tr with
  | [] => r = None
  | EvReport e _ _ :: tr' =>
      if is_Exception e then unwinds tr' r else tr' = [] /\ r = Some e
  | _ :: tr' => unwinds tr' r
  end.

(** What dispatching from the context [cv] and the loop [st] guarantees *)
Definition sound (cv : Context) (st : Loop) (x : outcome) : Prop :=
  let '(cv', st', tr, r) := x in
  evolves st st' tr /\
  unwinds tr r /\
  (forall h, guarded h (is_cancelled (handles st) h) tr) /\
  calls_ok (cvars cv) tr /\
  cvars cv' = writes tr ++ cvars cv /\
  _running_loop cv' = _running_loop cv /\
  (forall v, In (EvRunningLoop v) tr -> v = Some self).

(** An event that is neither a call, a write, a cancel, a report nor an
    observation, and is not the invocation of a cancelled handle *)
Definition harmless (st : Loop) (ev : event) : Prop :=
  match ev with
  | EvInvoke h => is_cancelled (handles st) h = false
  | EvSkip _ | EvIO _ | EvPopPending _ _ | EvSelect _ _ => True
  | _ => False
  end.

Definition report_of (r1 : option exn) (callback : cbid) (kw : mapping) : list event :=
  match r1 with
  | Some e => _exception_handler e callback kw
  | None => []
  end.

Definition escaping (r1 : option exn) : option exn :=
  match r1 with
  | Some e => if is_Exception e then None else Some e
  | None => None
  end.

(** No call to [pop_pending] or [select] *)
Definition quiet (tr : list event) : Prop :=
  forallb (fun ev => negb (is_outer ev)) tr = true.

(** The order of the dispatches of one step, read off the events [trd] that
    follow its [select]: the early batch, then the selector callbacks, then
    the batch popped with the cut-off [end_at]. A later phase starts only
    when the one before is through; an exception ([r] is not [None]) cuts
    the step short. *)
Definition phases (early : list hid) (io : list fired) (end_at : Q)
           (r : option exn) (trd : list event) : Prop :=
  exists tr_e tr_i tr_l,
    trd = tr_e ++ tr_i ++ tr_l /\
    seen tr_e `prefix_of` map Timer early /\ quiet tr_e /\
    seen tr_i `prefix_of` map Io io /\ quiet tr_i /\
    (tr_i <> [] \/ tr_l <> [] -> seen tr_e = map Timer early) /\
    (tr_l <> [] -> seen tr_i = map Io io) /\
    ((tr_l = [] /\ r <> None) \/
     exists late tr_late,
       tr_l = EvPopPending end_at late :: tr_late /\
       seen tr_late `prefix_of` map Timer late /\ quiet tr_late /\
       (r = None -> seen tr_late = map Timer late)).

(** Every handle of the store before is in the store after, the same but
    for a [cancel()] recorded in [tr]. *)
Definition keeps_handles (st st' : Loop) (tr : list event) : Prop :=
  forall h hd, handles st !! h = Some hd ->
    exists hd', handles st' !! h = Some hd' /\ same_but_cancelled hd hd' /\
                (cancelled hd' = true -> cancelled hd = true \/ In (EvCancel h) tr).

(** What was called is what invoking the invoked items calls. *)
Definition accounted (st' : Loop) (tr : list event) : Prop :=
  map Some (calls tr) = map (target (handles st')) (invoked tr).

(** The handles enqueued in [tr] are the handles created meanwhile, each
    once, in the order of their creation. *)
Definition creates (st st' : Loop) (tr : list event) : Prop :=
  length (handles st) <= length (handles st') /\
  enqueued tr = seq (length (handles st))
                    (length (handles st') - length (handles st)).

(** The keyword context [_invoke_callback] is given for an item: none for a
    handle, [place], [fd] and [events] for a selector callback *)
Definition context_passed (it : item) : mapping :=
  match it with
  | Timer _ => []
  | Io (_, fd, events) => io_context fd events
  end.

(** Each call of the exception handler is about the item invoked last
    ([cur], to begin with): the callback it names is that item's and the
    keyword context is the one passed for that item. *)
Fixpoint origin_ok (store : list Handle) (cur : option item) (tr : list event) : Prop :=
  match tr with
  | [] => True
  | EvInvoke h :: tr' => origin_ok store (Some (Timer h)) tr'
  | EvIO f :: tr' => origin_ok store (Some (Io f)) tr'
  | EvReport _ cb kw :: tr' =>
      (exists it a, cur = Some it /\ target store it = Some (cb, a) /\
                    kw = context_passed it) /\
      origin_ok store cur tr'
  | _ :: tr' => origin_ok store cur tr'
  end.

(** ** Facts about the building blocks *)

Lemma is_cancelled_app (l : list Handle) (x : Handle) (h : hid) :
  is_cancelled l h = true -> is_cancelled (l ++ [x]) h = true.
Proof.
  unfold is_cancelled. destruct (l !! h) as [hd|] eqn:E; [|discriminate].
  rewrite (lookup_app_l_Some _ _ _ _ E). auto.
Qed.

Lemma is_cancelled_insert (l : list Handle) (i h : hid) (hd : Handle) :
  l !! i = Some hd ->
  is_cancelled l h = true -> is_cancelled (<[i := cancel hd]> l) h = true.
Proof.
  intros Hi. unfold is_cancelled.
  destruct (decide (i = h)) as [->|Hne].
  - rewrite list_lookup_insert_eq; [reflexivity|]. eapply lookup_lt_Some; eauto.
  - rewrite list_lookup_insert_ne by assumption. auto.
Qed.

Lemma is_cancelled_insert_eq (l : list Handle) (i : hid) (hd : Handle) :
  l !! i = Some hd -> is_cancelled (<[i := cancel hd]> l) i = true.
Proof.
  intros Hi. unfold is_cancelled.
  rewrite list_lookup_insert_eq; [reflexivity|]. eapply lookup_lt_Some; eauto.
Qed.

Lemma evolves_refl (st : Loop) : evolves st st [].
Proof.
  unfold evolves. split; [reflexivity|]. split; [lia|]. split; [auto|].
  split; intros ? [].
Qed.

Lemma evolves_trans (st st1 st2 : Loop) (tr1 tr2 : list event) :
  evolves st st1 tr1 -> evolves st1 st2 tr2 -> evolves st st2 (tr1 ++ tr2).
Proof.
  intros (T1 & L1 & C1 & K1 & E1) (T2 & L2 & C2 & K2 & E2). unfold evolves.
  split; [congruence|]. split; [lia|]. split; [auto|]. split.
  - intros h Hin. apply in_app_or in Hin as [Hin|Hin]; auto.
  - intros x Hin. apply in_app_or in Hin as [Hin|Hin].
    + specialize (E1 _ Hin). lia.
    + specialize (E2 _ Hin). lia.
Qed.

Lemma evolves_same_handles (st st' : Loop) :
  handles st' = handles st -> thread_context st' = thread_context st ->
  evolves st st' [].
Proof.
  intros E T. unfold evolves. rewrite E.
  split; [assumption|]. split; [lia|]. split; [auto|]. split; intros ? [].
Qed.

Lemma call_soon_evolves target a ctx (st : Loop) h st' tr :
  call_soon target a ctx st = (h, st', tr) -> evolves st st' tr.
Proof.
  unfold call_soon, new_handle, scheduler_enqueue. intros [= <- <- <-].
  unfold evolves; simpl. rewrite length_app; simpl.
  split; [reflexivity|]. split; [lia|]. split; [intros; by apply is_cancelled_app|].
  split; [intros ? [?|[]]; discriminate|].
  intros x [[= <-]|[]]. lia.
Qed.

Lemma call_later_evolves timeout target a ctx (st : Loop) h st' tr :
  call_later timeout target a ctx st = (h, st', tr) -> evolves st st' tr.
Proof.
  unfold call_later. destruct (Qeq_bool timeout 0); [apply call_soon_evolves|].
  unfold now, new_handle, scheduler_enqueue. intros [= <- <- <-].
  unfold evolves; simpl. rewrite length_app; simpl.
  split; [reflexivity|]. split; [lia|]. split; [intros; by apply is_cancelled_app|].
  split; [intros ? [?|[]]; discriminate|].
  intros x [[= <-]|[]]. lia.
Qed.

Lemma cancel_handle_evolves h (st st' : Loop) tr :
  cancel_handle h st = (st', tr) -> evolves st st' tr.
Proof.
  unfold cancel_handle. destruct (handles st !! h) as [hd|] eqn:E.
  - intros [= <- <-]. unfold evolves; simpl. rewrite length_insert.
    split; [reflexivity|]. split; [lia|]. split; [intros; by eapply is_cancelled_insert|].
    split; [|intros ? [?|[]]; discriminate].
    intros h' [[= <-]|[]]. by eapply is_cancelled_insert_eq.
  - intros [= <- <-]. apply evolves_refl.
Qed.

Lemma emit_inv tr (x : outcome) cv st tr0 r :
  emit tr x = (cv, st, tr0, r) ->
  exists tr', x = (cv, st, tr', r) /\ tr0 = tr ++ tr'.
Proof.
  destruct x as [[[cv' st'] tr'] r']. simpl. intros [= <- <- <- <-]. eauto.
Qed.

Lemma and_then_inv (x : outcome) f cv st tr r :
  and_then x f = (cv, st, tr, r) ->
  (exists e, x = (cv, st, tr, Some e) /\ r = Some e) \/
  (exists cv1 st1 tr1 tr2,
      x = (cv1, st1, tr1, None) /\ f cv1 st1 = (cv, st, tr2, r) /\ tr = tr1 ++ tr2).
Proof.
  destruct x as [[[cv1 st1] tr1] [e|]]; simpl.
  - intros [= <- <- <- <-]. left. eauto.
  - intros Hf. apply emit_inv in Hf as (tr2 & Hf & ->). right.
    exists cv1, st1, tr1, tr2. auto.
Qed.

Lemma writes_app (a b : list event) : writes (a ++ b) = writes b ++ writes a.
Proof.
  induction a as [|ev a IH]; simpl; [by rewrite app_nil_r|].
  destruct ev; try assumption. rewrite IH. by rewrite app_assoc.
Qed.

Lemma seen_app (a b : list event) : seen (a ++ b) = seen a ++ seen b.
Proof.
  induction a as [|ev a IH]; simpl; [reflexivity|].
  destruct ev; simpl; try assumption; by rewrite IH.
Qed.

Lemma reports_app (a b : list event) : reports (a ++ b) = reports a ++ reports b.
Proof.
  induction a as [|ev a IH]; simpl; [reflexivity|].
  destruct ev; simpl; try assumption; by rewrite IH.
Qed.

(** *** A callable's program *)

Lemma exec_evolves (p : prog) : forall cv (st : Loop) cv' st' tr r,
  exec p cv st = (cv', st', tr, r) -> evolves st st' tr.
Proof.
  induction p as [|e|target a ctx k IH|timeout target a ctx k IH|h k IH|k IH|k IH
                 |x v k IH|x k IH|k IH]; intros cv st cv' st' tr r Hex; simpl in Hex.
  - injection Hex as <- <- <- <-. apply evolves_refl.
  - injection Hex as <- <- <- <-. apply evolves_refl.
  - destruct (call_soon target a ctx st) as [[h st1] tr1] eqn:Hc.
    apply emit_inv in Hex as (tr2 & Hex & ->).
    eapply evolves_trans; [eapply call_soon_evolves|eapply IH]; eauto.
  - destruct (call_later timeout target a ctx st) as [[h st1] tr1] eqn:Hc.
    apply emit_inv in Hex as (tr2 & Hex & ->).
    eapply evolves_trans; [eapply call_later_evolves|eapply IH]; eauto.
  - destruct (cancel_handle h st) as [st1 tr1] eqn:Hc.
    apply emit_inv in Hex as (tr2 & Hex & ->).
    eapply evolves_trans; [eapply cancel_handle_evolves|eapply IH]; eauto.
  - apply emit_inv in Hex as (tr2 & Hex & ->). apply IH in Hex.
    destruct Hex as (T & L & C & K & E). unfold evolves.
    split; [assumption|]. split; [lia|]. split; [auto|]. split.
    + intros h [?|Hin]; [discriminate|auto].
    + intros y [?|Hin]; [discriminate|auto].
  - apply IH in Hex. destruct Hex as (T & L & C & K & E). unfold evolves.
    simpl in *. auto.
  - apply emit_inv in Hex as (tr2 & Hex & ->). apply IH in Hex.
    destruct Hex as (T & L & C & K & E). unfold evolves.
    split; [assumption|]. split; [lia|]. split; [auto|]. split.
    + intros h [?|Hin]; [discriminate|auto].
    + intros y [?|Hin]; [discriminate|auto].
  - eapply IH; eauto.
  - apply IH in Hex. destruct Hex as (T & L & C & K & E). unfold evolves.
    simpl in *. auto.
Qed.

Lemma exec_inner (p : prog) : forall cv (st : Loop) cv' st' tr r,
  exec p cv st = (cv', st', tr, r) -> forallb is_inner tr = true.
Proof.
  induction p as [|e|target a ctx k IH|timeout target a ctx k IH|h k IH|k IH|k IH
                 |x v k IH|x k IH|k IH]; intros cv st cv' st' tr r Hex; simpl in Hex.
  - by injection Hex as <- <- <- <-.
  - by injection Hex as <- <- <- <-.
  - unfold call_soon, new_handle, scheduler_enqueue in Hex.
    apply emit_inv in Hex as (tr2 & Hex & ->). simpl. eauto.
  - unfold call_later, call_soon, now, new_handle, scheduler_enqueue in Hex.
    destruct (Qeq_bool timeout 0);
      apply emit_inv in Hex as (tr2 & Hex & ->); simpl; eauto.
  - unfold cancel_handle in Hex. destruct (handles st !! h);
      apply emit_inv in Hex as (tr2 & Hex & ->); simpl; eauto.
  - apply emit_inv in Hex as (tr2 & Hex & ->). simpl. eauto.
  - eapply IH; eauto.
  - apply emit_inv in Hex as (tr2 & Hex & ->). simpl. eauto.
  - eapply IH; eauto.
  - eapply IH; eauto.
Qed.

Lemma exec_context (p : prog) : forall cv (st : Loop) cv' st' tr r,
  exec p cv st = (cv', st', tr, r) ->
  _running_loop cv' = _running_loop cv /\
  cvars cv' = writes tr ++ cvars cv /\
  (forall v, In (EvRunningLoop v) tr -> v = _running_loop cv).
Proof.
  induction p as [|e|target a ctx k IH|timeout target a ctx k IH|h k IH|k IH|k IH
                 |x v k IH|x k IH|k IH]; intros cv st cv' st' tr r Hex; simpl in Hex.
  - injection Hex as <- <- <- <-. repeat split; auto. intros ? [].
  - injection Hex as <- <- <- <-. repeat split; auto. intros ? [].
  - unfold call_soon, new_handle, scheduler_enqueue in Hex.
    apply emit_inv in Hex as (tr2 & Hex & ->).
    apply IH in Hex as (R & V & O). repeat split; auto.
    intros v [?|Hin]; [discriminate|auto].
  - unfold call_later, call_soon, now, new_handle, scheduler_enqueue in Hex.
    destruct (Qeq_bool timeout 0);
      apply emit_inv in Hex as (tr2 & Hex & ->);
      apply IH in Hex as (R & V & O); (repeat split; auto);
      intros v [?|Hin]; (discriminate || auto).
  - unfold cancel_handle in Hex. destruct (handles st !! h);
      apply emit_inv in Hex as (tr2 & Hex & ->);
      apply IH in Hex as (R & V & O); (repeat split; auto);
      intros v [?|Hin]; (discriminate || auto).
  - apply emit_inv in Hex as (tr2 & Hex & ->).
    apply IH in Hex as (R & V & O). repeat split; auto.
    intros v [[= <-]|Hin]; auto.
  - eapply IH; eauto.
  - apply emit_inv in Hex as (tr2 & Hex & ->).
    apply IH in Hex as (R & V & O). simpl in *. repeat split; auto.
    + rewrite V. by rewrite <- app_assoc.
    + intros v' [?|Hin]; [discriminate|auto].
  - eapply IH; eauto.
  - eapply IH; eauto.
Qed.

(** *** The monitors compose *)

Lemma unwinds_app (tr1 tr2 : list event) (r : option exn) :
  unwinds tr1 None -> unwinds tr2 r -> unwinds (tr1 ++ tr2) r.
Proof.
  induction tr1 as [|ev tr1 IH]; simpl; [auto|].
  destruct ev; auto. destruct (is_Exception e); [auto|]. intros [_ ?]. discriminate.
Qed.

Lemma unwinds_inner (tr : list event) :
  forallb is_inner tr = true -> unwinds tr None.
Proof.
  induction tr as [|ev tr IH]; simpl; [auto|].
  destruct ev; simpl; try discriminate; auto.
Qed.

Lemma armed_after_app h a tr1 tr2 :
  armed_after h a (tr1 ++ tr2) = armed_after h (armed_after h a tr1) tr2.
Proof. unfold armed_after. rewrite existsb_app. by rewrite orb_assoc. Qed.

Lemma guarded_app h (tr1 tr2 : list event) : forall a,
  guarded h a tr1 -> guarded h (armed_after h a tr1) tr2 ->
  guarded h a (tr1 ++ tr2).
Proof.
  induction tr1 as [|ev tr1 IH]; intros a; simpl.
  - unfold armed_after; simpl. by rewrite orb_false_r.
  - destruct ev; simpl;
      try (unfold armed_after in *; simpl in *; by apply IH).
    + intros [Hne Hg] Hg2. split; [assumption|].
      apply IH; [assumption|]. unfold armed_after in *; simpl in *. assumption.
    + intros Hg Hg2. apply IH; [assumption|].
      unfold armed_after in *; simpl in *. by rewrite <- orb_assoc.
Qed.

Lemma guarded_mono h (tr : list event) : forall a b,
  (b = true -> a = true) -> guarded h a tr -> guarded h b tr.
Proof.
  induction tr as [|ev tr IH]; intros a b Hab; simpl; [auto|].
  destruct ev; try (by apply IH).
  - intros [Hne Hg]. split; [auto|]. by eapply IH.
  - apply IH. intros Hb. apply orb_true_iff in Hb as [Hb|Hb]; apply orb_true_iff; auto.
Qed.

Lemma guarded_inner h (tr : list event) : forall a,
  forallb is_inner tr = true -> guarded h a tr.
Proof.
  induction tr as [|ev tr IH]; intros a; simpl; [auto|].
  destruct ev; simpl; try discriminate; auto.
Qed.

Lemma armed_after_true h a (tr : list event) :
  armed_after h a tr = true -> a = true \/ In (EvCancel h) tr.
Proof.
  unfold armed_after. intros Hb. apply orb_true_iff in Hb as [Hb|Hb]; [auto|].
  right. apply existsb_exists in Hb as (ev & Hin & Hev).
  destruct ev; try discriminate. apply Nat.eqb_eq in Hev as ->. assumption.
Qed.

Lemma calls_ok_app (tr1 tr2 : list event) : forall vars,
  calls_ok vars tr1 -> calls_ok (writes tr1 ++ vars) tr2 ->
  calls_ok vars (tr1 ++ tr2).
Proof.
  induction tr1 as [|ev tr1 IH]; intros vars; simpl; [auto|].
  destruct ev; simpl; try (by apply IH).
  - intros [Hc Hk] H2. split; [assumption|]. by apply IH.
  - intros Hk H2. apply IH; [assumption|]. by rewrite <- app_assoc in H2.
Qed.

Lemma calls_ok_inner (tr : list event) : forall vars,
  forallb is_inner tr = true -> calls_ok vars tr.
Proof.
  induction tr as [|ev tr IH]; intros vars; simpl; [auto|].
  destruct ev; simpl; try discriminate; auto.
Qed.

Lemma seen_inner (tr : list event) : forallb is_inner tr = true -> seen tr = [].
Proof.
  induction tr as [|ev tr IH]; simpl; [auto|].
  destruct ev; simpl; try discriminate; auto.
Qed.

Lemma inner_not_outer (tr : list event) :
  forallb is_inner tr = true -> forallb (fun ev => negb (is_outer ev)) tr = true.
Proof.
  induction tr as [|ev tr IH]; simpl; [auto|].
  destruct ev; simpl; try discriminate; auto.
Qed.

(** *** Sequencing keeps the guarantees *)

Lemma sound_and_then cv st (x : outcome) (f : Context -> Loop -> outcome) :
  sound cv st x -> (forall cv1 st1, sound cv1 st1 (f cv1 st1)) ->
  sound cv st (and_then x f).
Proof.
  destruct x as [[[cv1 st1] tr1] [e|]]; simpl; [auto|].
  intros (Ev & Un & Gu & Ca & Va & Ru & Ob) Hf. specialize (Hf cv1 st1).
  destruct (f cv1 st1) as [[[cv2 st2] tr2] r2]. simpl.
  destruct Hf as (Ev2 & Un2 & Gu2 & Ca2 & Va2 & Ru2 & Ob2).
  split; [by eapply evolves_trans|]. split; [by apply unwinds_app|].
  split.
  { intros h. apply guarded_app; [apply Gu|].
    eapply guarded_mono; [|apply Gu2]. intros Hb.
    apply armed_after_true in Hb as [Hb|Hb].
    - destruct Ev as (_ & _ & C & _). auto.
    - destruct Ev as (_ & _ & _ & K & _). auto. }
  split; [apply calls_ok_app; [assumption|by rewrite <- Va]|].
  split; [rewrite Va2, Va, writes_app; by rewrite app_assoc|].
  split; [congruence|].
  intros v Hin. apply in_app_or in Hin as [Hin|Hin]; auto.
Qed.

Lemma sound_same_handles cv (st0 st : Loop) (x : outcome) :
  handles st0 = handles st -> thread_context st0 = thread_context st ->
  sound cv st x -> sound cv st0 x.
Proof.
  destruct x as [[[cv' st'] tr] r]. unfold sound, evolves. intros -> ->. auto.
Qed.

Lemma sound_emit cv st (ev : event) (x : outcome) :
  harmless st ev -> sound cv st x -> sound cv st (emit [ev] x).
Proof.
  destruct x as [[[cv' st'] tr] r]. simpl.
  intros Hev (Ev & Un & Gu & Ca & Va & Ru & Ob).
  destruct ev; simpl in Hev; try contradiction; simpl;
    (split; [destruct Ev as (T & L & C & K & E); unfold evolves;
             split; [assumption|]; split; [lia|]; split; [auto|]; split;
             [intros ? [?|?]; [discriminate|auto]
             |intros ? [?|?]; [discriminate|auto]]|]);
    (split; [assumption|]);
    (split; [|split; [assumption|]; split; [assumption|]; split; [assumption|];
              intros ? [?|?]; [discriminate|auto]]);
    try assumption.
  intros h'. split; [|apply Gu]. intros Ha ->. congruence.
Qed.

(** *** One callable *)

Lemma invoke_callback_shape callback a kw cv (st : Loop) cv' st' tr r :
  _invoke_callback_within_context callback a kw cv st = (cv', st', tr, r) ->
  exists cv1 tr_in r1,
    exec (body callback a) (set_running_loop (Some self) cv) st
      = (cv1, st', tr_in, r1) /\
    cv' = set_running_loop (_running_loop cv) cv1 /\
    tr = EvCall callback a (set_running_loop (Some self) cv)
           :: tr_in ++ report_of r1 callback kw /\
    r = escaping r1.
Proof.
  unfold _invoke_callback_within_context.
  destruct (exec (body callback a) (set_running_loop (Some self) cv) st)
    as [[[cv1 st1] tr_in] r1] eqn:Hex.
  intros Hr. exists cv1, tr_in, r1.
  destruct r1 as [e|]; simpl.
  - destruct (is_Exception e); injection Hr as <- <- <- <-; auto.
  - injection Hr as <- <- <- <-. rewrite app_nil_r. auto.
Qed.

Lemma report_of_plain r1 callback kw ev :
  In ev (report_of r1 callback kw) ->
  exists e, r1 = Some e /\ ev = EvReport e callback kw.
Proof.
  destruct r1 as [e|]; simpl; [|intros []]. intros [<-|[]]. eauto.
Qed.

Lemma sound_invoke_callback callback a kw cv (st : Loop) :
  sound cv st (_invoke_callback_within_context callback a kw cv st).
Proof.
  destruct (_invoke_callback_within_context callback a kw cv st)
    as [[[cv' st'] tr] r] eqn:Hinv.
  apply invoke_callback_shape in Hinv as (cv1 & tr_in & r1 & Hex & -> & -> & ->).
  pose proof (exec_evolves _ _ _ _ _ _ _ Hex) as (T & L & C & K & E).
  pose proof (exec_context _ _ _ _ _ _ _ Hex) as (Ru & Va & Ob).
  pose proof (exec_inner _ _ _ _ _ _ _ Hex) as Hin.
  simpl.
  assert (Hw : writes (tr_in ++ report_of r1 callback kw) = writes tr_in).
  { rewrite writes_app. destruct r1; reflexivity. }
  split.
  { unfold evolves. split; [assumption|]. split; [lia|]. split; [auto|]. split.
    - intros h [?|Hi]; [discriminate|]. apply in_app_or in Hi as [Hi|Hi]; [auto|].
      apply report_of_plain in Hi as (e & _ & ?). discriminate.
    - intros x [?|Hi]; [discriminate|]. apply in_app_or in Hi as [Hi|Hi]; [auto|].
      apply report_of_plain in Hi as (e & _ & ?). discriminate. }
  split.
  { destruct r1 as [e|]; simpl.
    - destruct (is_Exception e) eqn:He.
      + apply unwinds_app; [by apply unwinds_inner|]. simpl. by rewrite He.
      + clear -Hin He. induction tr_in as [|ev tr_in IH]; simpl.
        * rewrite He. auto.
        * simpl in Hin. destruct ev; simpl in *; try discriminate; auto.
    - rewrite app_nil_r. by apply unwinds_inner. }
  split.
  { intros h. apply guarded_app; [by apply guarded_inner|].
    destruct r1; simpl; auto. }
  split.
  { split; [reflexivity|]. apply calls_ok_app; [by apply calls_ok_inner|].
    destruct r1; simpl; auto. }
  split; [rewrite Hw; exact Va|]. split; [reflexivity|].
  intros v [?|Hi]; [discriminate|].
  apply in_app_or in Hi as [Hi|Hi]; [by apply Ob in Hi|].
  apply report_of_plain in Hi as (e & _ & ?). discriminate.
Qed.

Lemma sound_invoke_handle cv handle (st : Loop) :
  sound cv st (_invoke_handle cv handle st).
Proof.
  unfold _invoke_handle.
  assert (Hskip : sound cv st (cv, st, [EvSkip handle], None)).
  { change (sound cv st (emit [EvSkip handle] (cv, st, [], None))).
    apply sound_emit; [exact I|]. simpl.
    split; [apply evolves_refl|]. repeat split; auto. intros ? []. }
  destruct (handles st !! handle) as [h|] eqn:Hl; [|exact Hskip].
  destruct (cancelled h) eqn:Hc; [exact Hskip|].
  apply sound_emit; [|apply sound_invoke_callback].
  simpl. unfold is_cancelled. by rewrite Hl.
Qed.

Lemma sound_invoke_handles hs : forall cv (st : Loop),
  sound cv st (invoke_handles hs cv st).
Proof.
  induction hs as [|h hs IH]; intros cv st; simpl.
  - split; [apply evolves_refl|]. repeat split; auto. intros ? [].
  - apply sound_and_then; [apply sound_invoke_handle|apply IH].
Qed.

Lemma sound_invoke_io cbs : forall cv (st : Loop),
  sound cv st (invoke_io cbs cv st).
Proof.
  induction cbs as [|[[callback fd] events] cbs IH]; intros cv st; simpl.
  - split; [apply evolves_refl|]. repeat split; auto. intros ? [].
  - apply sound_and_then; [|apply IH].
    apply sound_emit; [exact I|apply sound_invoke_callback].
Qed.

Lemma sound_late_phase end_at cv (st : Loop) :
  sound cv st (late_phase end_at cv st).
Proof.
  unfold late_phase, scheduler_pop_pending.
  destruct (pop_pending end_at (handles st) (_scheduler st)) as [late sch].
  apply sound_emit; [exact I|].
  eapply sound_same_handles; [| |apply sound_invoke_handles]; reflexivity.
Qed.

Lemma sound_dispatch early io end_at cv (st : Loop) :
  sound cv st (dispatch early io end_at cv st).
Proof.
  unfold dispatch. apply sound_and_then; [apply sound_invoke_handles|].
  intros cv1 st1. apply sound_and_then; [apply sound_invoke_io|].
  intros cv2 st2. apply sound_late_phase.
Qed.

(** *** What reaches its dispatch point, and in which order *)

Lemma quiet_app (a b : list event) : quiet a -> quiet b -> quiet (a ++ b).
Proof. unfold quiet. rewrite forallb_app. intros -> ->. reflexivity. Qed.

Lemma invoke_callback_seen callback a kw cv (st : Loop) cv' st' tr r :
  _invoke_callback_within_context callback a kw cv st = (cv', st', tr, r) ->
  seen tr = [] /\ quiet tr.
Proof.
  intros Hinv.
  apply invoke_callback_shape in Hinv as (cv1 & tr_in & r1 & Hex & -> & -> & ->).
  pose proof (exec_inner _ _ _ _ _ _ _ Hex) as Hin.
  split.
  - simpl. rewrite seen_app, (seen_inner _ Hin). destruct r1; reflexivity.
  - unfold quiet. simpl. rewrite forallb_app, (inner_not_outer _ Hin).
    destruct r1; reflexivity.
Qed.

Lemma invoke_handle_seen cv handle (st : Loop) cv' st' tr r :
  _invoke_handle cv handle st = (cv', st', tr, r) ->
  seen tr = [Timer handle] /\ quiet tr.
Proof.
  unfold _invoke_handle.
  destruct (handles st !! handle) as [h|]; [destruct (cancelled h)|];
    try (intros [= <- <- <- <-]; split; reflexivity).
  intros Hinv. apply emit_inv in Hinv as (tr' & Hinv & ->).
  apply invoke_callback_seen in Hinv as [Hs Hq]. simpl. rewrite Hs.
  split; [reflexivity|]. exact Hq.
Qed.

Lemma invoke_handles_seen hs : forall cv (st : Loop) cv' st' tr r,
  invoke_handles hs cv st = (cv', st', tr, r) ->
  seen tr `prefix_of` map Timer hs /\
  (r = None -> seen tr = map Timer hs) /\
  quiet tr.
Proof.
  induction hs as [|h hs IH]; intros cv st cv' st' tr r; simpl.
  - intros [= <- <- <- <-]. split; [reflexivity|]. split; reflexivity.
  - intros Hat. apply and_then_inv in Hat
      as [(e & Hh & ->)|(cv1 & st1 & tr1 & tr2 & Hh & Hrest & ->)];
      apply invoke_handle_seen in Hh as [Hs Hq].
    + rewrite Hs. split; [by apply prefix_cons, prefix_nil|].
      split; [discriminate|assumption].
    + apply IH in Hrest as (Hp & He & Hq2). rewrite seen_app, Hs. simpl.
      split; [by apply prefix_cons|]. split; [|by apply quiet_app].
      intros Hr. by rewrite He.
Qed.

Lemma invoke_io_seen cbs : forall cv (st : Loop) cv' st' tr r,
  invoke_io cbs cv st = (cv', st', tr, r) ->
  seen tr `prefix_of` map Io cbs /\
  (r = None -> seen tr = map Io cbs) /\
  quiet tr.
Proof.
  induction cbs as [|[[callback fd] events] cbs IH]; intros cv st cv' st' tr r; simpl.
  - intros [= <- <- <- <-]. split; [reflexivity|]. split; reflexivity.
  - intros Hat. apply and_then_inv in Hat
      as [(e & Hh & ->)|(cv1 & st1 & tr1 & tr2 & Hh & Hrest & ->)];
      apply emit_inv in Hh as (tr' & Hh & ->);
      apply invoke_callback_seen in Hh as [Hs Hq]; simpl.
    + rewrite Hs. split; [by apply prefix_cons, prefix_nil|].
      split; [discriminate|assumption].
    + apply IH in Hrest as (Hp & He & Hq2). rewrite seen_app, Hs. simpl.
      split; [by apply prefix_cons|]. split; [|by apply (quiet_app (_ :: _))].
      intros Hr. by rewrite He.
Qed.

(** *** [run_step], taken apart *)

Lemma run_step_shape (st : Loop) st' tr r :
  run_step st = (st', tr, r) ->
  let t0 := now_reading _clock (clock_reads st) in
  let t1 := now_reading _clock (clock_reads st + reads_before_select st) in
  let early := (step_early st).1 in
  exists w io st0 cv' trd,
    tr = EvPopPending (t0 + resolution _clock)%Q early :: EvSelect w io :: trd /\
    w = (compute_wait early (step_next_event st).1
           (mkLoop (handles st) (step_next_event st).2 (_selector st)
                   (S (clock_reads st)) (thread_context st) (received_fut st))).1 /\
    io = (select w (_selector st)).1 /\
    dispatch early io (t1 + resolution _clock)%Q (thread_context st) st0
      = (cv', st', trd, r) /\
    handles st0 = handles st /\
    thread_context st0 = thread_context st /\
    _scheduler st0 = (step_next_event st).2.
Proof.
  unfold run_step, reads_before_select, step_next_event, step_early.
  unfold now at 1. unfold scheduler_pop_pending, scheduler_next_event. simpl.
  destruct (pop_pending _ (handles st) (_scheduler st)) as [early sch1]. simpl.
  destruct (next_event (handles st) sch1) as [ne sch2]. simpl.
  unfold compute_wait.
  destruct (0 <? length early) eqn:Hlen.
  - unfold selector_select; simpl.
    destruct (select (Some 0%Q) (_selector st)) as [io sel] eqn:Hsel; simpl.
    unfold copy_context; simpl.
    destruct (dispatch _ _ _ _ _) as [[[cv' st1] trd] r1] eqn:Hd.
    intros [= <- <- <-]. rewrite Nat.add_1_r.
    eexists _, _, _, _, _. split; [reflexivity|]. split; [reflexivity|].
    split; [by rewrite Hsel|]. split; [eassumption|].
      split; [reflexivity|]. split; reflexivity.
  - destruct ne as [d|].
    + unfold now at 1. unfold selector_select; simpl.
      destruct (select _ (_selector st)) as [io sel] eqn:Hsel; simpl.
      unfold copy_context; simpl.
      destruct (dispatch _ _ _ _ _) as [[[cv' st1] trd] r1] eqn:Hd.
      intros [= <- <- <-]. replace (clock_reads st + 2) with (S (S (clock_reads st))) by lia.
      eexists _, _, _, _, _. split; [reflexivity|]. split; [reflexivity|].
      split; [by rewrite Hsel|]. split; [eassumption|].
      split; [reflexivity|]. split; reflexivity.
    + unfold selector_select; simpl.
      destruct (select None (_selector st)) as [io sel] eqn:Hsel; simpl.
      unfold copy_context; simpl.
      destruct (dispatch _ _ _ _ _) as [[[cv' st1] trd] r1] eqn:Hd.
      intros [= <- <- <-]. rewrite Nat.add_1_r.
      eexists _, _, _, _, _. split; [reflexivity|]. split; [reflexivity|].
      split; [by rewrite Hsel|]. split; [eassumption|].
      split; [reflexivity|]. split; reflexivity.
Qed.

Lemma dispatch_phases early io end_at cv (st : Loop) cv' st' trd r :
  dispatch early io end_at cv st = (cv', st', trd, r) ->
  phases early io end_at r trd.
Proof.
  unfold dispatch, phases. intros Hd.
  apply and_then_inv in Hd
    as [(e & He & ->)|(cv1 & st1 & tr_e & tr2 & He & Hd & ->)];
    apply invoke_handles_seen in He as (Pe & Ee & Qe).
  { exists trd, [], []. rewrite !app_nil_r.
    repeat split; auto using prefix_nil.
    - intros [?|?]; congruence.
    - congruence. }
  apply and_then_inv in Hd
    as [(e & Hi & ->)|(cv2 & st2 & tr_i & tr_l & Hi & Hl & ->)];
    apply invoke_io_seen in Hi as (Pi & Ei & Qi).
  { exists tr_e, tr2, []. rewrite !app_nil_r.
    repeat split; auto.
    - congruence. }
  unfold late_phase, scheduler_pop_pending in Hl.
  destruct (pop_pending end_at (handles st2) (_scheduler st2)) as [late sch].
  apply emit_inv in Hl as (tr_late & Hl & ->).
  apply invoke_handles_seen in Hl as (Pl & El & Ql).
  exists tr_e, tr_i, ([EvPopPending end_at late] ++ tr_late).
  repeat split; auto.
  right. exists late, tr_late. repeat split; auto.
Qed.

Lemma phases_one_select early io end_at r (trd : list event) :
  phases early io end_at r trd -> forallb (fun ev => negb (is_select ev)) trd = true.
Proof.
  assert (Hq : forall tr, quiet tr -> forallb (fun ev => negb (is_select ev)) tr = true).
  { unfold quiet. induction tr as [|ev tr IH]; simpl; [auto|].
    intros Hb. apply andb_true_iff in Hb as [Hev Hb]. rewrite (IH Hb).
    destruct ev; simpl in *; auto. }
  intros (tr_e & tr_i & tr_l & -> & _ & Qe & _ & Qi & _ & _ & Hl).
  rewrite !forallb_app, (Hq _ Qe), (Hq _ Qi). simpl.
  destruct Hl as [[-> _]|(late & tr_late & -> & _ & Ql & _)]; simpl; auto.
Qed.

Lemma clamp_wait_max0 (d : deadline) (t : Q) :
  (clamp_wait d t == max0_minus d t)%Q.
Proof.
  destruct d as [|d]; simpl; [reflexivity|].
  unfold Qltb. destruct (Qle_bool 0 (d - t)) eqn:Hle; simpl.
  - apply Qle_bool_iff in Hle. symmetry. by apply Q.max_r.
  - symmetry. apply Q.max_l. apply Qlt_le_weak, Qnot_le_lt.
    intros Hc. apply Qle_bool_iff in Hc. congruence.
Qed.

(** ** The properties of a step *)

(** C1 (as amended): the first two calls of a step are
    [pop_pending(t0 + resolution)] and [select(w)], [select] is called once,
    and [w] is [0] if the batch just popped is non-empty; else [None] if the
    scheduler reports no next event, whether or not I/O is registered; else
    [max(0, next_event - clock.now())]. *)
Theorem select_budget (st : Loop) :
  let early := (step_early st).1 in
  let next_event_at := (step_next_event st).1 in
  exists w io trd,
    (run_step st).1.2
      = EvPopPending (now_reading _clock (clock_reads st) + resolution _clock)%Q early
          :: EvSelect w io :: trd /\
    forallb (fun ev => negb (is_select ev)) trd = true /\
    timeout_eq w (budget early next_event_at
                         (now_reading _clock (S (clock_reads st)))).
Proof.
  intros early ne.
  destruct (run_step st) as [[st' tr] r] eqn:Hstep.
  apply run_step_shape in Hstep as (w & io & st0 & cv' & trd & -> & Hw & _ & Hd & _ & _ & _).
  apply dispatch_phases, phases_one_select in Hd.
  exists w, io, trd. split; [reflexivity|]. split; [assumption|].
  subst w. fold early. fold ne. unfold compute_wait, budget.
  destruct (0 <? length early); simpl; [reflexivity|].
  destruct ne as [d|]; simpl; [|exact I].
  apply clamp_wait_max0.
Qed.


(** *** Reading the monitors *)

Lemma guarded_armed h (tr : list event) :
  guarded h true tr -> ~ In (EvInvoke h) tr.
Proof.
  induction tr as [|ev tr IH]; simpl; [tauto|].
  destruct ev; try (intros Hg [?|Hin]; [discriminate|by apply IH]).
  intros [Hne Hg] [[= ->]|Hin]; [by apply Hne|by apply IH].
Qed.

Lemma guarded_split h (tr1 tr2 : list event) : forall a,
  guarded h a (tr1 ++ tr2) -> guarded h (armed_after h a tr1) tr2.
Proof.
  induction tr1 as [|ev tr1 IH]; intros a; simpl.
  - unfold armed_after; simpl. by rewrite orb_false_r.
  - destruct ev; simpl;
      try (intros Hg; apply IH in Hg; unfold armed_after in *; simpl in *; exact Hg).
    + intros [_ Hg]. apply IH in Hg. unfold armed_after in *; simpl in *. exact Hg.
    + intros Hg. apply IH in Hg. unfold armed_after in *; simpl in *.
      by rewrite orb_assoc.
Qed.

Lemma guarded_after_cancel h a (tr1 tr2 : list event) :
  guarded h a (tr1 ++ EvCancel h :: tr2) -> ~ In (EvInvoke h) tr2.
Proof.
  intros Hg. apply guarded_split in Hg. simpl in Hg.
  rewrite Nat.eqb_refl, orb_true_r in Hg. by apply guarded_armed.
Qed.

Lemma calls_ok_split (tr1 tr2 : list event) cb a c : forall vars,
  calls_ok vars (tr1 ++ EvCall cb a c :: tr2) ->
  c = mkContext (Some self) (writes tr1 ++ vars).
Proof.
  induction tr1 as [|ev tr1 IH]; intros vars; simpl.
  - by intros [-> _].
  - destruct ev; simpl; try (by apply IH).
    + intros [_ Hk]. by apply IH.
    + intros Hk. apply IH in Hk. by rewrite <- app_assoc.
Qed.

Lemma unwinds_report (tr : list event) r e cb kw :
  unwinds tr r -> In (EvReport e cb kw) tr -> is_Exception e = false ->
  r = Some e /\ exists tr0, tr = tr0 ++ [EvReport e cb kw].
Proof.
  intros Hu Hin He. induction tr as [|ev tr IH]; [destruct Hin|].
  destruct ev as [?|? ?|? ?|?|?|?|? ? ?|?|?|? ?|e' cb' kw']; simpl in Hu;
    try (destruct Hin as [?|Hin]; [discriminate|];
         destruct (IH Hu Hin) as (-> & tr0 & ->);
         split; [reflexivity|]; by eexists (_ :: tr0)).
  destruct Hin as [[= -> -> ->]|Hin].
  - rewrite He in Hu. destruct Hu as [-> ->]. split; [reflexivity|]. by exists [].
  - destruct (is_Exception e').
    + destruct (IH Hu Hin) as (-> & tr0 & ->).
      split; [reflexivity|]. by eexists (_ :: tr0).
    + destruct Hu as [-> _]. destruct Hin.
Qed.

Lemma unwinds_raised (tr : list event) e :
  unwinds tr (Some e) ->
  is_Exception e = false /\ exists tr0 cb kw, tr = tr0 ++ [EvReport e cb kw].
Proof.
  induction tr as [|ev tr IH]; simpl; [discriminate|].
  assert (Hcons : unwinds tr (Some e) ->
                  is_Exception e = false /\
                  exists tr0 cb kw, ev :: tr = tr0 ++ [EvReport e cb kw]).
  { intros Hu. destruct (IH Hu) as (He & tr0 & cb & kw & ->).
    split; [assumption|]. by exists (ev :: tr0), cb, kw. }
  destruct ev as [?|? ?|? ?|?|?|?|? ? ?|?|?|? ?|e' cb' kw']; try exact Hcons.
  destruct (is_Exception e') eqn:He0; [exact Hcons|].
  intros [-> [= ->]]. split; [assumption|]. by exists [], cb', kw'.
Qed.

(** *** A whole step, and [run] *)

Lemma run_step_sound (st : Loop) st' tr r :
  run_step st = (st', tr, r) ->
  evolves st st' tr /\
  unwinds tr r /\
  (forall h, guarded h (is_cancelled (handles st) h) tr) /\
  calls_ok (cvars (thread_context st)) tr /\
  (forall v, In (EvRunningLoop v) tr -> v = Some self).
Proof.
  intros Hstep.
  apply run_step_shape in Hstep as (w & io & st0 & cv' & trd & -> & _ & _ & Hd & Hh & Ht & _).
  pose proof (sound_dispatch ((step_early st).1) io
                (now_reading _clock (clock_reads st + reads_before_select st)
                 + resolution _clock)%Q (thread_context st) st0) as Hs.
  rewrite Hd in Hs. apply (sound_same_handles _ st) in Hs; [|congruence|congruence].
  apply (sound_emit _ _ (EvSelect w io)) in Hs; [|exact I].
  apply (sound_emit _ _ (EvPopPending
           (now_reading _clock (clock_reads st) + resolution _clock)%Q
           (step_early st).1)) in Hs; [|exact I].
  simpl in Hs. destruct Hs as (Ev & Un & Gu & Ca & Va & Ru & Ob).
  split; [exact Ev|]. split; [exact Un|]. split; [exact Gu|].
  split; [exact Ca|]. exact Ob.
Qed.

Lemma guarded_seq h (st st1 : Loop) (tr1 tr2 : list event) :
  evolves st st1 tr1 ->
  guarded h (is_cancelled (handles st) h) tr1 ->
  guarded h (is_cancelled (handles st1) h) tr2 ->
  guarded h (is_cancelled (handles st) h) (tr1 ++ tr2).
Proof.
  intros (_ & _ & C & K & _) G1 G2. apply guarded_app; [assumption|].
  eapply guarded_mono; [|exact G2]. intros Hb.
  apply armed_after_true in Hb as [Hb|Hb]; auto.
Qed.

Lemma run_sound (fuel : nat) : forall (st : Loop) st' tr res,
  run fuel st = (st', tr, res) ->
  evolves st st' tr /\
  (forall h, guarded h (is_cancelled (handles st) h) tr) /\
  (forall e, res = RunRaised e -> is_Exception e = false).
Proof.
  induction fuel as [|fuel IH]; intros st st' tr res; simpl.
  - intros [= <- <- <-]. split; [apply evolves_refl|]. split; [simpl; auto|discriminate].
  - destruct (run_step st) as [[st1 tr1] r1] eqn:Hstep.
    apply run_step_sound in Hstep as (Ev & Un & Gu & _).
    destruct r1 as [e|].
    + intros [= <- <- <-]. split; [assumption|]. split; [assumption|].
      intros e' [= <-]. by apply unwinds_raised in Un as [? _].
    + destruct (received_fut st1).
      * intros [= <- <- <-]. split; [assumption|]. split; [assumption|discriminate].
      * destruct (run fuel st1) as [[st2 tr2] res2] eqn:Hrun.
        intros [= <- <- <-]. apply IH in Hrun as (Ev2 & Gu2 & Ex2).
        split; [by eapply evolves_trans|]. split; [|assumption].
        intros h. by eapply guarded_seq.
Qed.

(** C5: a handle whose [cancelled] flag is set when it reaches its dispatch
    point is dropped there with no callback invocation, and the loop never
    invokes it: neither when the flag was already set as the step (or
    [run]) began, nor after a [cancel()] made during it. *)
Theorem cancelled_never_invoked (st : Loop) (h : hid) :
  (is_cancelled (handles st) h = true ->
   (forall cv, _invoke_handle cv h st = (cv, st, [EvSkip h], None)) /\
   ~ In (EvInvoke h) (run_step st).1.2 /\
   (forall fuel, ~ In (EvInvoke h) (run fuel st).1.2)) /\
  (forall tr1 tr2, (run_step st).1.2 = tr1 ++ EvCancel h :: tr2 ->
                   ~ In (EvInvoke h) tr2) /\
  (forall fuel tr1 tr2, (run fuel st).1.2 = tr1 ++ EvCancel h :: tr2 ->
                        ~ In (EvInvoke h) tr2).
Proof.
  split; [intros Hc; split; [|split]|split].
  - intros cv. unfold _invoke_handle. unfold is_cancelled in Hc.
    destruct (handles st !! h) as [hd|]; [|discriminate]. by rewrite Hc.
  - destruct (run_step st) as [[st' tr] r] eqn:Hstep.
    apply run_step_sound in Hstep as (_ & _ & Gu & _).
    specialize (Gu h). rewrite Hc in Gu. by apply guarded_armed.
  - intros fuel. destruct (run fuel st) as [[st' tr] res] eqn:Hrun.
    apply run_sound in Hrun as (_ & Gu & _).
    specialize (Gu h). rewrite Hc in Gu. by apply guarded_armed.
  - intros tr1 tr2. destruct (run_step st) as [[st' tr] r] eqn:Hstep.
    apply run_step_sound in Hstep as (_ & _ & Gu & _). simpl. intros ->.
    eapply guarded_after_cancel, Gu.
  - intros fuel tr1 tr2. destruct (run fuel st) as [[st' tr] res] eqn:Hrun.
    apply run_sound in Hrun as (_ & Gu & _). simpl. intros ->.
    eapply guarded_after_cancel, Gu.
Qed.

(** C7: an exception that is not an [Exception] ([KeyboardCanceled] among
    them) raised inside a callback is reported to the exception handler and
    raised again; the report is then the last thing the step does, the
    exception leaves [run_step] and leaves [run]. An [Exception] never
    leaves the step. *)
Theorem base_exception_propagates :
  is_Exception KeyboardCanceled = false /\
  (forall callback a kw cv (st : Loop) cv1 st1 tr_in e,
      exec (body callback a) (set_running_loop (Some self) cv) st
        = (cv1, st1, tr_in, Some e) ->
      is_Exception e = false ->
      _invoke_callback_within_context callback a kw cv st
        = (set_running_loop (_running_loop cv) cv1, st1,
           EvCall callback a (set_running_loop (Some self) cv)
             :: tr_in ++ [EvReport e callback kw],
           Some e)) /\
  (forall (st : Loop) e cb kw,
      In (EvReport e cb kw) (run_step st).1.2 -> is_Exception e = false ->
      (run_step st).2 = Some e /\
      (exists tr0, (run_step st).1.2 = tr0 ++ [EvReport e cb kw]) /\
      forall fuel, (run (S fuel) st).2 = RunRaised e) /\
  (forall (st : Loop) e, (run_step st).2 = Some e -> is_Exception e = false) /\
  (forall fuel (st : Loop) e, (run fuel st).2 = RunRaised e -> is_Exception e = false).
Proof.
  split; [reflexivity|]. split; [|split; [|split]].
  - intros callback a kw cv st cv1 st1 tr_in e Hex He.
    unfold _invoke_callback_within_context. rewrite Hex, He. reflexivity.
  - intros st e cb kw Hin He.
    destruct (run_step st) as [[st' tr] r] eqn:Hstep.
    pose proof (run_step_sound _ _ _ _ Hstep) as (_ & Un & _).
    simpl in *. destruct (unwinds_report _ _ _ _ _ Un Hin He) as (-> & Htr).
    split; [reflexivity|]. split; [assumption|].
    intros fuel. by rewrite Hstep.
  - intros st e. destruct (run_step st) as [[st' tr] r] eqn:Hstep.
    apply run_step_sound in Hstep as (_ & Un & _). simpl. intros ->.
    by apply unwinds_raised in Un as [? _].
  - intros fuel st e. destruct (run fuel st) as [[st' tr] res] eqn:Hrun.
    apply run_sound in Hrun as (_ & _ & Ex). simpl. intros ->. by apply Ex.
Qed.

(** C9: every callable a step dispatches runs in the one context the step
    copied from the thread's context: the variables of the snapshot plus
    the writes made so far in the step, with [_running_loop] set to the
    loop itself; the loop is what a callable sees there all along; on the
    way out, returning or raising, [_running_loop] is set back to what it
    was; and the thread's own context is left as it was. *)
Theorem callbacks_run_in_step_context :
  (forall callback a kw cv (st : Loop),
      let '(cv', _, tr, _) := _invoke_callback_within_context callback a kw cv st in
      _running_loop cv' = _running_loop cv /\
      (exists tr', tr = EvCall callback a (mkContext (Some self) (cvars cv)) :: tr') /\
      forall v, In (EvRunningLoop v) tr -> v = Some self) /\
  (forall (st : Loop),
      let tr := (run_step st).1.2 in
      (forall tr1 cb a c tr2,
          tr = tr1 ++ EvCall cb a c :: tr2 ->
          c = mkContext (Some self) (writes tr1 ++ cvars (thread_context st))) /\
      (forall v, In (EvRunningLoop v) tr -> v = Some self) /\
      thread_context (run_step st).1.1 = thread_context st).
Proof.
  split.
  - intros callback a kw cv st.
    pose proof (sound_invoke_callback callback a kw cv st) as Hs.
    destruct (_invoke_callback_within_context callback a kw cv st)
      as [[[cv' st'] tr] r] eqn:Hinv.
    destruct Hs as (_ & _ & _ & _ & _ & Ru & Ob).
    apply invoke_callback_shape in Hinv as (cv1 & tr_in & r1 & _ & _ & -> & _).
    split; [assumption|]. split; [|assumption]. by eexists.
  - intros st tr. subst tr.
    destruct (run_step st) as [[st' tr] r] eqn:Hstep.
    apply run_step_sound in Hstep as (Ev & _ & _ & Ca & Ob). simpl.
    split; [|split; [assumption|apply Ev]].
    intros tr1 cb a c tr2 ->. by eapply calls_ok_split.
Qed.

(** C8: [call_soon] creates a handle with no deadline, enqueues it and
    returns it; [call_later] with a delay equal to [0] is [call_soon]; with
    any other delay it creates a handle whose deadline is
    [clock.now() + delay], enqueues it and returns it. *)
Theorem call_later_deadline (st : Loop) (timeout : Q) (target : cbid)
        (a : list nat) (ctx : option mapping) :
  let h := length (handles st) in
  (exists st',
      call_soon target a ctx st = (h, st', [EvEnqueue h]) /\
      handles st' = handles st ++ [mkHandle None target a false (or_empty ctx)] /\
      _scheduler st' = enqueue h (handles st') (_scheduler st)) /\
  ((timeout == 0)%Q ->
   call_later timeout target a ctx st = call_soon target a ctx st) /\
  (~ (timeout == 0)%Q ->
   exists st',
     call_later timeout target a ctx st = (h, st', [EvEnqueue h]) /\
     handles st'
       = handles st ++ [mkHandle (Some (now_reading _clock (clock_reads st) + timeout)%Q)
                                 target a false (or_empty ctx)] /\
     _scheduler st' = enqueue h (handles st') (_scheduler st)).
Proof.
  intros h. split; [|split].
  - eexists. split; [reflexivity|]. split; reflexivity.
  - intros Hz. unfold call_later. apply Qeq_bool_iff in Hz. by rewrite Hz.
  - intros Hnz. unfold call_later.
    destruct (Qeq_bool timeout 0) eqn:Hb; [apply Qeq_bool_iff in Hb; contradiction|].
    eexists. split; [reflexivity|]. split; reflexivity.
Qed.

(** *** The late phase *)

Lemma after_quiet (tr l : list event) :
  quiet tr -> after is_pop (tr ++ l) = after is_pop l.
Proof.
  unfold quiet. induction tr as [|ev tr IH]; simpl; [auto|].
  intros Hb. apply andb_true_iff in Hb as [Hev Hb].
  destruct ev; simpl in *; try discriminate; auto.
Qed.

Lemma dispatch_inv early io end_at cv (st : Loop) cv' st' trd r :
  dispatch early io end_at cv st = (cv', st', trd, r) ->
  after is_pop trd = [] \/
  exists tr_e tr_i cv1 st1 cv2 st2 tr_late,
    invoke_handles early cv st = (cv1, st1, tr_e, None) /\
    invoke_io io cv1 st1 = (cv2, st2, tr_i, None) /\
    invoke_handles (pop_pending end_at (handles st2) (_scheduler st2)).1 cv2
      (mkLoop (handles st2) (pop_pending end_at (handles st2) (_scheduler st2)).2
              (_selector st2) (clock_reads st2) (thread_context st2)
              (received_fut st2))
      = (cv', st', tr_late, r) /\
    trd = tr_e ++ tr_i
            ++ EvPopPending end_at (pop_pending end_at (handles st2) (_scheduler st2)).1
            :: tr_late /\
    after is_pop trd = tr_late.
Proof.
  unfold dispatch. intros Hd.
  apply and_then_inv in Hd
    as [(e & He & ->)|(cv1 & st1 & tr_e & tr2 & He & Hd & ->)].
  { left. apply invoke_handles_seen in He as (_ & _ & Qe).
    rewrite <- (app_nil_r trd). by rewrite after_quiet. }
  apply and_then_inv in Hd
    as [(e & Hi & ->)|(cv2 & st2 & tr_i & tr_l & Hi & Hl & ->)].
  { left. apply invoke_handles_seen in He as (_ & _ & Qe).
    apply invoke_io_seen in Hi as (_ & _ & Qi).
    rewrite after_quiet by assumption.
    rewrite <- (app_nil_r tr2). by rewrite after_quiet. }
  right. unfold late_phase, scheduler_pop_pending in Hl.
  destruct (pop_pending end_at (handles st2) (_scheduler st2)) as [late sch] eqn:Hp.
  apply emit_inv in Hl as (tr_late & Hl & ->).
  exists tr_e, tr_i, cv1, st1, cv2, st2, tr_late.
  split; [assumption|]. split; [assumption|]. split; [rewrite Hp; exact Hl|].
  split; [by rewrite Hp|].
  pose proof (invoke_handles_seen _ _ _ _ _ _ _ He) as (_ & _ & Qe).
  pose proof (invoke_io_seen _ _ _ _ _ _ _ Hi) as (_ & _ & Qi).
  rewrite !after_quiet by assumption. reflexivity.
Qed.

Lemma seen_invoke (tr : list event) h : In (EvInvoke h) tr -> In (Timer h) (seen tr).
Proof.
  induction tr as [|ev tr IH]; simpl; [auto|].
  intros [->|Hin]; [by left|]. destruct ev; simpl; auto.
Qed.

Lemma invoke_handles_only hs cv (st : Loop) cv' st' tr r h :
  invoke_handles hs cv st = (cv', st', tr, r) -> In (EvInvoke h) tr -> In h hs.
Proof.
  intros Hinv Hin. apply invoke_handles_seen in Hinv as ([k Hk] & _ & _).
  apply seen_invoke in Hin.
  assert (Hm : In (Timer h) (map Timer hs)) by (rewrite Hk; apply in_or_app; auto).
  apply in_map_iff in Hm as (h' & [= ->] & ?). assumption.
Qed.

Lemma invoke_io_no_handle cbs cv (st : Loop) cv' st' tr r h :
  invoke_io cbs cv st = (cv', st', tr, r) -> ~ In (EvInvoke h) tr.
Proof.
  intros Hinv Hin. apply invoke_io_seen in Hinv as ([k Hk] & _ & _).
  apply seen_invoke in Hin.
  assert (Hm : In (Timer h) (map Io cbs)) by (rewrite Hk; apply in_or_app; auto).
  apply in_map_iff in Hm as (f & ? & ?). discriminate.
Qed.

Lemma invoke_handles_evolves hs cv (st : Loop) cv' st' tr r :
  invoke_handles hs cv st = (cv', st', tr, r) -> evolves st st' tr.
Proof.
  intros Hinv. pose proof (sound_invoke_handles hs cv st) as Hs.
  rewrite Hinv in Hs. apply Hs.
Qed.

Lemma invoke_io_evolves cbs cv (st : Loop) cv' st' tr r :
  invoke_io cbs cv st = (cv', st', tr, r) -> evolves st st' tr.
Proof.
  intros Hinv. pose proof (sound_invoke_io cbs cv st) as Hs.
  rewrite Hinv in Hs. apply Hs.
Qed.

(** ** A relation kept by every call made while dispatching

    Whatever relates the loop before and after each call of the public
    interface, is reflexive on a call that records one event and leaves the
    loop alone, and is transitive, relates the loop before and after a
    whole batch. *)
Section Preservation.
Variable R : Loop -> Loop -> list event -> Prop.
Hypothesis R_refl : forall st, R st st [].
Hypothesis R_trans : forall st st1 st2 tr1 tr2,
  R st st1 tr1 -> R st1 st2 tr2 -> R st st2 (tr1 ++ tr2).
Hypothesis R_call_soon : forall target a ctx st h st' tr,
  call_soon target a ctx st = (h, st', tr) -> R st st' tr.
Hypothesis R_call_later : forall timeout target a ctx st h st' tr,
  call_later timeout target a ctx st = (h, st', tr) -> R st st' tr.
Hypothesis R_cancel : forall h st st' tr,
  cancel_handle h st = (st', tr) -> R st st' tr.
Hypothesis R_now : forall st, R st (now st).2 [].
Hypothesis R_receive : forall st, R st (receive_result st) [].
Hypothesis R_event : forall st ev,
  (forall x, ev <> EvEnqueue x) -> (forall h, ev <> EvCancel h) -> R st st [ev].

Lemma exec_kept (p : prog) : forall cv (st : Loop) cv' st' tr r,
  exec p cv st = (cv', st', tr, r) -> R st st' tr.
Proof.
  induction p as [|e|target a ctx k IH|timeout target a ctx k IH|h k IH|k IH|k IH
                 |x v k IH|x k IH|k IH]; intros cv st cv' st' tr r Hex; simpl in Hex.
  - injection Hex as <- <- <- <-. apply R_refl.
  - injection Hex as <- <- <- <-. apply R_refl.
  - destruct (call_soon target a ctx st) as [[h st1] tr1] eqn:Hc.
    apply emit_inv in Hex as (tr2 & Hex & ->). eapply R_trans; eauto.
  - destruct (call_later timeout target a ctx st) as [[h st1] tr1] eqn:Hc.
    apply emit_inv in Hex as (tr2 & Hex & ->). eapply R_trans; eauto.
  - destruct (cancel_handle h st) as [st1 tr1] eqn:Hc.
    apply emit_inv in Hex as (tr2 & Hex & ->). eapply R_trans; eauto.
  - apply emit_inv in Hex as (tr2 & Hex & ->).
    eapply R_trans; [apply R_event; discriminate|eauto].
  - change tr with ([] ++ tr). eapply R_trans; [apply R_now|eauto].
  - apply emit_inv in Hex as (tr2 & Hex & ->).
    eapply R_trans; [apply R_event; discriminate|eauto].
  - eauto.
  - change tr with ([] ++ tr). eapply R_trans; [apply R_receive|eauto].
Qed.

Lemma invoke_callback_kept callback a kw cv (st : Loop) cv' st' tr r :
  _invoke_callback_within_context callback a kw cv st = (cv', st', tr, r) ->
  R st st' tr.
Proof.
  intros Hinv.
  apply invoke_callback_shape in Hinv as (cv1 & tr_in & r1 & Hex & _ & -> & _).
  apply exec_kept in Hex.
  apply (R_trans st st st' [_] (tr_in ++ _)); [apply R_event; discriminate|].
  destruct r1 as [e|]; simpl; [|by rewrite app_nil_r].
  apply (R_trans st st' st'); [assumption|]. apply R_event; discriminate.
Qed.

Lemma invoke_handle_kept cv handle (st : Loop) cv' st' tr r :
  _invoke_handle cv handle st = (cv', st', tr, r) -> R st st' tr.
Proof.
  unfold _invoke_handle.
  destruct (handles st !! handle) as [h|]; [destruct (cancelled h)|];
    try (intros [= <- <- <- <-]; apply R_event; discriminate).
  intros Hinv. apply emit_inv in Hinv as (tr' & Hinv & ->).
  apply invoke_callback_kept in Hinv.
  eapply R_trans; [apply R_event; discriminate|eassumption].
Qed.

Lemma invoke_handles_kept hs : forall cv (st : Loop) cv' st' tr r,
  invoke_handles hs cv st = (cv', st', tr, r) -> R st st' tr.
Proof.
  induction hs as [|h hs IH]; intros cv st cv' st' tr r; simpl.
  - intros [= <- <- <- <-]. apply R_refl.
  - intros Hat. apply and_then_inv in Hat
      as [(e & Hh & ->)|(cv1 & st1 & tr1 & tr2 & Hh & Hrest & ->)];
      apply invoke_handle_kept in Hh; [assumption|].
    eapply R_trans; eauto.
Qed.

Lemma invoke_io_kept cbs : forall cv (st : Loop) cv' st' tr r,
  invoke_io cbs cv st = (cv', st', tr, r) -> R st st' tr.
Proof.
  induction cbs as [|[[callback fd] events] cbs IH]; intros cv st cv' st' tr r; simpl.
  - intros [= <- <- <- <-]. apply R_refl.
  - intros Hat.
    assert (Hone : forall cv1 st1 tr1 r1,
               emit [EvIO (callback, fd, events)]
                 (_invoke_callback cv callback [fd; events] (io_context fd events) st)
               = (cv1, st1, tr1, r1) -> R st st1 tr1).
    { intros cv1 st1 tr1 r1 Hh. apply emit_inv in Hh as (tr' & Hh & ->).
      apply invoke_callback_kept in Hh.
      eapply R_trans; [apply R_event; discriminate|eassumption]. }
    apply and_then_inv in Hat
      as [(e & Hh & ->)|(cv1 & st1 & tr1 & tr2 & Hh & Hrest & ->)];
      apply Hone in Hh; [assumption|].
    eapply R_trans; eauto.
Qed.

End Preservation.

(** ** Further properties of the loop *)

(** *** The store of handles *)

Lemma same_but_cancelled_refl (hd : Handle) : same_but_cancelled hd hd.
Proof. unfold same_but_cancelled. auto. Qed.

Lemma same_but_cancelled_trans (a b c : Handle) :
  same_but_cancelled a b -> same_but_cancelled b c -> same_but_cancelled a c.
Proof.
  unfold same_but_cancelled. intros (W1 & C1 & A1 & X1 & K1) (W2 & C2 & A2 & X2 & K2).
  repeat split; try congruence. auto.
Qed.

Lemma keeps_refl (st : Loop) : keeps_handles st st [].
Proof.
  intros h hd Hl. exists hd. split; [assumption|].
  split; [apply same_but_cancelled_refl|auto].
Qed.

Lemma keeps_trans (st st1 st2 : Loop) tr1 tr2 :
  keeps_handles st st1 tr1 -> keeps_handles st1 st2 tr2 ->
  keeps_handles st st2 (tr1 ++ tr2).
Proof.
  intros K1 K2 h hd Hl.
  destruct (K1 _ _ Hl) as (hd1 & Hl1 & S1 & B1).
  destruct (K2 _ _ Hl1) as (hd2 & Hl2 & S2 & B2).
  exists hd2. split; [assumption|]. split; [by eapply same_but_cancelled_trans|].
  intros Hc. destruct (B2 Hc) as [Hc1|Hin]; [|right; apply in_or_app; auto].
  destruct (B1 Hc1) as [?|Hin]; [auto|right; apply in_or_app; auto].
Qed.

Lemma keeps_same (st st' : Loop) tr :
  handles st' = handles st -> keeps_handles st st' tr.
Proof.
  intros E h hd Hl. exists hd. rewrite E. split; [assumption|].
  split; [apply same_but_cancelled_refl|auto].
Qed.

Lemma keeps_append (st st' : Loop) tr (hd0 : Handle) :
  handles st' = handles st ++ [hd0] -> keeps_handles st st' tr.
Proof.
  intros E h hd Hl. exists hd. rewrite E.
  split; [by apply lookup_app_l_Some|].
  split; [apply same_but_cancelled_refl|auto].
Qed.

Lemma keeps_call_soon target a ctx (st : Loop) h st' tr :
  call_soon target a ctx st = (h, st', tr) -> keeps_handles st st' tr.
Proof.
  unfold call_soon, new_handle, scheduler_enqueue. intros [= <- <- <-].
  by eapply keeps_append.
Qed.

Lemma keeps_call_later timeout target a ctx (st : Loop) h st' tr :
  call_later timeout target a ctx st = (h, st', tr) -> keeps_handles st st' tr.
Proof.
  unfold call_later. destruct (Qeq_bool timeout 0); [apply keeps_call_soon|].
  unfold now, new_handle, scheduler_enqueue. intros [= <- <- <-].
  by eapply keeps_append.
Qed.

Lemma keeps_cancel h (st st' : Loop) tr :
  cancel_handle h st = (st', tr) -> keeps_handles st st' tr.
Proof.
  unfold cancel_handle. destruct (handles st !! h) as [hd0|] eqn:E.
  - intros [= <- <-] h' hd Hl. simpl.
    destruct (decide (h = h')) as [->|Hne].
    + exists (cancel hd0). rewrite list_lookup_insert_eq by (by eapply lookup_lt_Some).
      split; [reflexivity|]. rewrite E in Hl. injection Hl as ->.
      split; [unfold same_but_cancelled; simpl; auto|]. intros _. right. by left.
    + exists hd. rewrite list_lookup_insert_ne by assumption.
      split; [assumption|]. split; [apply same_but_cancelled_refl|auto].
  - intros [= <- <-]. apply keeps_refl.
Qed.

Lemma invoke_handles_keeps hs cv (st : Loop) cv' st' tr r :
  invoke_handles hs cv st = (cv', st', tr, r) -> keeps_handles st st' tr.
Proof.
  apply (invoke_handles_kept keeps_handles);
    eauto using keeps_refl, keeps_trans, keeps_call_soon, keeps_call_later,
                keeps_cancel.
  - intros st0. by apply keeps_same.
  - intros st0. by apply keeps_same.
  - intros st0 ev _ _. by apply keeps_same.
Qed.

Lemma invoke_io_keeps cbs cv (st : Loop) cv' st' tr r :
  invoke_io cbs cv st = (cv', st', tr, r) -> keeps_handles st st' tr.
Proof.
  apply (invoke_io_kept keeps_handles);
    eauto using keeps_refl, keeps_trans, keeps_call_soon, keeps_call_later,
                keeps_cancel.
  - intros st0. by apply keeps_same.
  - intros st0. by apply keeps_same.
  - intros st0 ev _ _. by apply keeps_same.
Qed.

Lemma invoke_callback_keeps callback a kw cv (st : Loop) cv' st' tr r :
  _invoke_callback_within_context callback a kw cv st = (cv', st', tr, r) ->
  keeps_handles st st' tr.
Proof.
  apply (invoke_callback_kept keeps_handles);
    eauto using keeps_refl, keeps_trans, keeps_call_soon, keeps_call_later,
                keeps_cancel.
  - intros st0. by apply keeps_same.
  - intros st0. by apply keeps_same.
  - intros st0 ev _ _. by apply keeps_same.
Qed.

Lemma late_phase_keeps end_at cv (st : Loop) cv' st' tr r :
  late_phase end_at cv st = (cv', st', tr, r) -> keeps_handles st st' tr.
Proof.
  unfold late_phase, scheduler_pop_pending.
  destruct (pop_pending end_at (handles st) (_scheduler st)) as [late sch].
  intros Hl. apply emit_inv in Hl as (tr' & Hl & ->).
  apply invoke_handles_keeps in Hl.
  eapply (keeps_trans st _ st' [_]); [|exact Hl]. by apply keeps_same.
Qed.

Lemma dispatch_keeps early io end_at cv (st : Loop) cv' st' tr r :
  dispatch early io end_at cv st = (cv', st', tr, r) -> keeps_handles st st' tr.
Proof.
  unfold dispatch. intros Hd.
  apply and_then_inv in Hd
    as [(e & He & ->)|(cv1 & st1 & tr_e & tr2 & He & Hd & ->)];
    apply invoke_handles_keeps in He; [assumption|].
  eapply keeps_trans; [exact He|].
  apply and_then_inv in Hd
    as [(e & Hi & ->)|(cv2 & st2 & tr_i & tr_l & Hi & Hl & ->)];
    apply invoke_io_keeps in Hi; [assumption|].
  eapply keeps_trans; [exact Hi|]. by eapply late_phase_keeps.
Qed.

Lemma run_step_keeps (st : Loop) st' tr r :
  run_step st = (st', tr, r) -> keeps_handles st st' tr.
Proof.
  intros Hstep.
  apply run_step_shape in Hstep
    as (w & io & st0 & cv' & trd & -> & _ & _ & Hd & Hh & _ & _).
  apply dispatch_keeps in Hd.
  apply (keeps_trans st st0 st' [_; _] trd); [by apply keeps_same|assumption].
Qed.

(** X3: neither a step nor [run] removes a handle from the store or
    changes its deadline, callback, arguments or context; a [cancelled]
    flag is never cleared, and it is set only by a [cancel()] made during
    the run. *)
Theorem handles_kept (st : Loop) (fuel : nat) :
  keeps_handles st (run_step st).1.1 (run_step st).1.2 /\
  keeps_handles st (run fuel st).1.1 (run fuel st).1.2.
Proof.
  split.
  - destruct (run_step st) as [[st' tr] r] eqn:Hstep. by eapply run_step_keeps.
  - revert st. induction fuel as [|fuel IH]; intros st; simpl; [apply keeps_refl|].
    destruct (run_step st) as [[st1 tr1] [e|]] eqn:Hstep;
      apply run_step_keeps in Hstep; [assumption|].
    destruct (received_fut st1); [assumption|].
    specialize (IH st1). destruct (run fuel st1) as [[st2 tr2] res]. simpl in *.
    by eapply keeps_trans.
Qed.

(** *** The timeout of [select] *)

Lemma clamp_wait_nonneg (d : deadline) (t : Q) : (0 <= clamp_wait d t)%Q.
Proof.
  destruct d as [|d]; simpl; [apply Qle_refl|].
  unfold Qltb. destruct (Qle_bool 0 (d - t)) eqn:Hle; simpl.
  - by apply Qle_bool_iff.
  - apply Qle_refl.
Qed.

(** X4: [select] is never passed a negative timeout. *)
Theorem select_timeout_nonnegative (st : Loop) (w : Q) (io : list fired) :
  In (EvSelect (Some w) io) (run_step st).1.2 -> (0 <= w)%Q.
Proof.
  destruct (run_step st) as [[st' tr] r] eqn:Hstep. simpl.
  apply run_step_shape in Hstep
    as (w0 & io0 & st0 & cv' & trd & -> & Hw & _ & Hd & _ & _ & _).
  apply dispatch_phases, phases_one_select in Hd.
  intros [?|[Hin|Hin]]; [discriminate| |].
  - injection Hin as -> ->. unfold compute_wait in Hw.
    destruct (0 <? length (step_early st).1); simpl in Hw.
    + injection Hw as ->. apply Qle_refl.
    + destruct ((step_next_event st).1) as [d|]; simpl in Hw; [|discriminate].
      injection Hw as ->. apply clamp_wait_nonneg.
  - rewrite forallb_forall in Hd. specialize (Hd _ Hin). discriminate.
Qed.

(** *** Scheduling, then cancelling *)

(** X5: a handle that is cancelled right after [call_soon] or [call_later]
    returned it is never invoked, however long the loop runs. *)
Theorem cancelled_after_scheduling (st : Loop) (timeout : Q) (target : cbid)
        (a : list nat) (ctx : option mapping) (fuel : nat) :
  (let h := (call_soon target a ctx st).1.1 in
   let st1 := (call_soon target a ctx st).1.2 in
   ~ In (EvInvoke h) (run fuel (cancel_handle h st1).1).1.2) /\
  (let h := (call_later timeout target a ctx st).1.1 in
   let st1 := (call_later timeout target a ctx st).1.2 in
   ~ In (EvInvoke h) (run fuel (cancel_handle h st1).1).1.2).
Proof.
  assert (Hgen : forall (st1 : Loop) h hd,
             handles st1 !! h = Some hd ->
             ~ In (EvInvoke h) (run fuel (cancel_handle h st1).1).1.2).
  { intros st1 h hd Hl.
    destruct (run fuel (cancel_handle h st1).1) as [[st2 tr] res] eqn:Hrun.
    apply run_sound in Hrun as (_ & Gu & _). specialize (Gu h).
    unfold cancel_handle in Gu. rewrite Hl in Gu. simpl in Gu.
    rewrite (is_cancelled_insert_eq _ _ _ Hl) in Gu. by apply guarded_armed. }
  assert (Hsoon : forall st0 : Loop,
             exists hd, handles (call_soon target a ctx st0).1.2
                          !! (call_soon target a ctx st0).1.1 = Some hd).
  { intros st0. unfold call_soon, new_handle, scheduler_enqueue. simpl.
    eexists. by apply list_lookup_middle. }
  split.
  - intros h st1. destruct (Hsoon st) as [hd Hl]. by eapply Hgen.
  - intros h st1. subst h st1. unfold call_later.
    destruct (Qeq_bool timeout 0).
    + destruct (Hsoon st) as [hd Hl]. by eapply Hgen.
    + unfold new_handle, scheduler_enqueue. simpl.
      eapply Hgen. simpl. by apply list_lookup_middle.
Qed.

(** *** What is called *)

Lemma calls_app (a b : list event) : calls (a ++ b) = calls a ++ calls b.
Proof.
  induction a as [|ev a IH]; simpl; [reflexivity|].
  destruct ev; simpl; try assumption; by rewrite IH.
Qed.

Lemma invoked_app (a b : list event) : invoked (a ++ b) = invoked a ++ invoked b.
Proof.
  induction a as [|ev a IH]; simpl; [reflexivity|].
  destruct ev; simpl; try assumption; by rewrite IH.
Qed.

Lemma calls_inner (tr : list event) : forallb is_inner tr = true -> calls tr = [].
Proof.
  induction tr as [|ev tr IH]; simpl; [auto|].
  destruct ev; simpl; try discriminate; auto.
Qed.

Lemma invoked_inner (tr : list event) : forallb is_inner tr = true -> invoked tr = [].
Proof.
  induction tr as [|ev tr IH]; simpl; [auto|].
  destruct ev; simpl; try discriminate; auto.
Qed.

Lemma invoke_callback_calls callback a kw cv (st : Loop) cv' st' tr r :
  _invoke_callback_within_context callback a kw cv st = (cv', st', tr, r) ->
  calls tr = [(callback, a)] /\ invoked tr = [].
Proof.
  intros Hinv.
  apply invoke_callback_shape in Hinv as (cv1 & tr_in & r1 & Hex & _ & -> & _).
  apply exec_inner in Hex. simpl.
  rewrite calls_app, invoked_app, (calls_inner _ Hex), (invoked_inner _ Hex).
  destruct r1; auto.
Qed.

Lemma target_kept (st st' : Loop) tr (it : item) x :
  keeps_handles st st' tr ->
  target (handles st) it = Some x -> target (handles st') it = Some x.
Proof.
  intros K. destruct it as [h|[[cb fd] ev]]; simpl; [|auto].
  destruct (handles st !! h) as [hd|] eqn:Hl; [|discriminate].
  destruct (K _ _ Hl) as (hd' & -> & (_ & Hc & Ha & _) & _). simpl.
  intros [= <-]. by rewrite Hc, Ha.
Qed.

Lemma accounted_seq (st1 st2 : Loop) tr1 tr2 :
  accounted st1 tr1 -> keeps_handles st1 st2 tr2 -> accounted st2 tr2 ->
  accounted st2 (tr1 ++ tr2).
Proof.
  unfold accounted. intros A1 K A2.
  rewrite calls_app, invoked_app, !map_app, A2. f_equal.
  rewrite A1. clear A2.
  revert A1. generalize (calls tr1). induction (invoked tr1) as [|it l IH];
    intros cs; [reflexivity|].
  destruct cs as [|c cs]; simpl; [discriminate|].
  intros [= Hc Hrest]. symmetry in Hc. rewrite (target_kept _ _ _ _ _ K Hc), Hc.
  f_equal. by eapply IH.
Qed.

Lemma invoke_handle_accounted cv h (st : Loop) cv' st' tr r :
  _invoke_handle cv h st = (cv', st', tr, r) -> accounted st' tr.
Proof.
  unfold _invoke_handle, accounted.
  destruct (handles st !! h) as [hd|] eqn:Hl; [destruct (cancelled hd)|];
    try (by intros [= <- <- <- <-]).
  intros Hinv. apply emit_inv in Hinv as (tr' & Hinv & ->).
  pose proof (invoke_callback_calls _ _ _ _ _ _ _ _ _ Hinv) as [Hc Hi].
  apply invoke_callback_keeps in Hinv.
  destruct (Hinv _ _ Hl) as (hd' & Hl' & (_ & Hcb & Ha & _) & _).
  simpl. rewrite Hc, Hi, Hl'. simpl. by rewrite Hcb, Ha.
Qed.

Lemma invoke_handles_accounted hs : forall cv (st : Loop) cv' st' tr r,
  invoke_handles hs cv st = (cv', st', tr, r) -> accounted st' tr.
Proof.
  induction hs as [|h hs IH]; intros cv st cv' st' tr r; simpl.
  - by intros [= <- <- <- <-].
  - intros Hat. apply and_then_inv in Hat
      as [(e0 & Hh & ->)|(cv1 & st1 & tr1 & tr2 & Hh & Hrest & ->)].
    + by eapply invoke_handle_accounted.
    + eapply accounted_seq;
        [by eapply invoke_handle_accounted|by eapply invoke_handles_keeps|by eapply IH].
Qed.

Lemma invoke_io_accounted cbs : forall cv (st : Loop) cv' st' tr r,
  invoke_io cbs cv st = (cv', st', tr, r) -> accounted st' tr.
Proof.
  induction cbs as [|[[callback fd] events] cbs IH]; intros cv st cv' st' tr r; simpl.
  - by intros [= <- <- <- <-].
  - intros Hat.
    assert (Hone : forall cv1 st1 tr1 r1,
               emit [EvIO (callback, fd, events)]
                 (_invoke_callback cv callback [fd; events] (io_context fd events) st)
               = (cv1, st1, tr1, r1) -> accounted st1 tr1).
    { intros cv1 st1 tr1 r1 Hinv. apply emit_inv in Hinv as (tr' & Hinv & ->).
      apply invoke_callback_calls in Hinv as [Hc Hi].
      unfold accounted. simpl. by rewrite Hc, Hi. }
    apply and_then_inv in Hat
      as [(e0 & Hh & ->)|(cv1 & st1 & tr1 & tr2 & Hh & Hrest & ->)].
    + by eapply Hone.
    + eapply accounted_seq; [by eapply Hone|by eapply invoke_io_keeps|by eapply IH].
Qed.

Lemma dispatch_accounted early io end_at cv (st : Loop) cv' st' tr r :
  dispatch early io end_at cv st = (cv', st', tr, r) -> accounted st' tr.
Proof.
  unfold dispatch. intros Hd.
  apply and_then_inv in Hd
    as [(e0 & He & ->)|(cv1 & st1 & tr_e & tr2 & He & Hd & ->)];
    [by eapply invoke_handles_accounted|].
  pose proof Hd as Hd'.
  apply and_then_inv in Hd
    as [(e0 & Hi & ->)|(cv2 & st2 & tr_i & tr_l & Hi & Hl & ->)].
  { eapply accounted_seq;
      [by eapply invoke_handles_accounted|by eapply invoke_io_keeps
      |by eapply invoke_io_accounted]. }
  assert (Hkl : keeps_handles st2 st' tr_l) by (by eapply late_phase_keeps).
  assert (Hal : accounted st' tr_l).
  { unfold late_phase, scheduler_pop_pending in Hl.
    destruct (pop_pending end_at (handles st2) (_scheduler st2)) as [late sch].
    apply emit_inv in Hl as (tr' & Hl & ->).
    apply invoke_handles_accounted in Hl. exact Hl. }
  eapply accounted_seq; [by eapply invoke_handles_accounted| |].
  - eapply keeps_trans; [by eapply invoke_io_keeps|exact Hkl].
  - eapply accounted_seq; [by eapply invoke_io_accounted|exact Hkl|exact Hal].
Qed.

(** X6: what a step calls is, in order, exactly the callback of each
    handle it invokes, on the arguments the handle holds, and each callback
    [select] returned that it invokes, on its [fd] and [events]. *)
Theorem calls_are_the_invoked (st : Loop) :
  accounted (run_step st).1.1 (run_step st).1.2.
Proof.
  destruct (run_step st) as [[st' tr] r] eqn:Hstep. simpl.
  apply run_step_shape in Hstep
    as (w & io & st0 & cv' & trd & -> & _ & _ & Hd & _ & _ & _).
  apply dispatch_accounted in Hd. exact Hd.
Qed.

(** *** What the exception handler is told *)

Lemma origin_ok_app store (a b : list event) :
  (forall cur', origin_ok store cur' b) ->
  forall cur, origin_ok store cur a -> origin_ok store cur (a ++ b).
Proof.
  intros Hb. induction a as [|ev a IH]; intros cur; simpl; [auto|].
  destruct ev; auto. intros [Hr Ha]. split; auto.
Qed.

Lemma origin_ok_inner store (a b : list event) cur :
  forallb is_inner a = true -> origin_ok store cur b -> origin_ok store cur (a ++ b).
Proof.
  induction a as [|ev a IH]; simpl; [auto|].
  destruct ev; simpl; try discriminate; auto.
Qed.

Lemma origin_ok_kept (st st' : Loop) tr0 (tr : list event) : forall cur,
  keeps_handles st st' tr0 ->
  origin_ok (handles st) cur tr -> origin_ok (handles st') cur tr.
Proof.
  intros cur K. revert cur. induction tr as [|ev tr IH]; intros cur; simpl; [auto|].
  destruct ev; auto.
  intros [(it & a & Hc & Ht & Hk) Hrest]. split; [|auto].
  exists it, a. split; [assumption|]. split; [by eapply target_kept|assumption].
Qed.

Lemma invoke_callback_origin callback a kw cv (st : Loop) cv' st' tr r it a0 :
  _invoke_callback_within_context callback a kw cv st = (cv', st', tr, r) ->
  target (handles st') it = Some (callback, a0) -> kw = context_passed it ->
  origin_ok (handles st') (Some it) tr.
Proof.
  intros Hinv Ht Hk.
  apply invoke_callback_shape in Hinv as (cv1 & tr_in & r1 & Hex & _ & -> & _).
  apply exec_inner in Hex. simpl. apply origin_ok_inner; [assumption|].
  destruct r1 as [e|]; simpl; [|exact I]. split; [|exact I].
  exists it, a0. auto.
Qed.

Lemma invoke_handle_origin cv h (st : Loop) cv' st' tr r :
  _invoke_handle cv h st = (cv', st', tr, r) ->
  forall cur, origin_ok (handles st') cur tr.
Proof.
  unfold _invoke_handle.
  destruct (handles st !! h) as [hd|] eqn:Hl; [destruct (cancelled hd)|];
    try (by intros [= <- <- <- <-] cur).
  intros Hinv cur. apply emit_inv in Hinv as (tr' & Hinv & ->). simpl.
  pose proof (invoke_callback_keeps _ _ _ _ _ _ _ _ _ Hinv) as K.
  destruct (K _ _ Hl) as (hd' & Hl' & (_ & Hcb & Ha & _) & _).
  eapply (invoke_callback_origin _ _ _ _ _ _ _ _ _ (Timer h)); [exact Hinv| |reflexivity].
  simpl. rewrite Hl'. simpl. by rewrite Hcb, Ha.
Qed.

Lemma invoke_handles_origin hs : forall cv (st : Loop) cv' st' tr r,
  invoke_handles hs cv st = (cv', st', tr, r) ->
  forall cur, origin_ok (handles st') cur tr.
Proof.
  induction hs as [|h hs IH]; intros cv st cv' st' tr r; simpl.
  - by intros [= <- <- <- <-] cur.
  - intros Hat. apply and_then_inv in Hat
      as [(e0 & Hh & ->)|(cv1 & st1 & tr1 & tr2 & Hh & Hrest & ->)].
    + by eapply invoke_handle_origin.
    + intros cur. apply origin_ok_app; [by eapply IH|].
      eapply origin_ok_kept; [by eapply invoke_handles_keeps|].
      by eapply invoke_handle_origin.
Qed.

Lemma invoke_io_origin cbs : forall cv (st : Loop) cv' st' tr r,
  invoke_io cbs cv st = (cv', st', tr, r) ->
  forall cur, origin_ok (handles st') cur tr.
Proof.
  induction cbs as [|[[callback fd] events] cbs IH]; intros cv st cv' st' tr r; simpl.
  - by intros [= <- <- <- <-] cur.
  - intros Hat.
    assert (Hone : forall cv1 st1 tr1 r1,
               emit [EvIO (callback, fd, events)]
                 (_invoke_callback cv callback [fd; events] (io_context fd events) st)
               = (cv1, st1, tr1, r1) ->
               forall cur, origin_ok (handles st1) cur tr1).
    { intros cv1 st1 tr1 r1 Hinv cur. apply emit_inv in Hinv as (tr' & Hinv & ->).
      simpl.
      by eapply (invoke_callback_origin _ _ _ _ _ _ _ _ _ (Io (callback, fd, events))). }
    apply and_then_inv in Hat
      as [(e0 & Hh & ->)|(cv1 & st1 & tr1 & tr2 & Hh & Hrest & ->)].
    + by eapply Hone.
    + intros cur. apply origin_ok_app; [by eapply IH|].
      eapply origin_ok_kept; [by eapply invoke_io_keeps|]. by eapply Hone.
Qed.

Lemma dispatch_origin early io end_at cv (st : Loop) cv' st' tr r :
  dispatch early io end_at cv st = (cv', st', tr, r) ->
  forall cur, origin_ok (handles st') cur tr.
Proof.
  unfold dispatch. intros Hd.
  apply and_then_inv in Hd
    as [(e0 & He & ->)|(cv1 & st1 & tr_e & tr2 & He & Hd & ->)];
    [by eapply invoke_handles_origin|].
  assert (K2 : keeps_handles st1 st' tr2).
  { apply and_then_inv in Hd
      as [(e0 & Hi & ->)|(cv2 & st2 & tr_i & tr_l & Hi & Hl & ->)];
      [by eapply invoke_io_keeps|].
    eapply keeps_trans; [by eapply invoke_io_keeps|by eapply late_phase_keeps]. }
  intros cur. apply origin_ok_app;
    [|eapply origin_ok_kept; [exact K2|by eapply invoke_handles_origin]].
  apply and_then_inv in Hd
    as [(e0 & Hi & ->)|(cv2 & st2 & tr_i & tr_l & Hi & Hl & ->)];
    [by eapply invoke_io_origin|].
  pose proof (late_phase_keeps _ _ _ _ _ _ _ Hl) as Kl.
  unfold late_phase, scheduler_pop_pending in Hl.
  destruct (pop_pending end_at (handles st2) (_scheduler st2)) as [late sch].
  apply emit_inv in Hl as (tr' & Hl & ->).
  intros cur'. apply origin_ok_app.
  - intros cur''. simpl. by eapply invoke_handles_origin.
  - eapply origin_ok_kept; [exact Kl|by eapply invoke_io_origin].
Qed.

Lemma origin_ok_split store (tr1 tr2 : list event) e cb kw : forall cur,
  origin_ok store cur (tr1 ++ EvReport e cb kw :: tr2) ->
  exists it a,
    match list.last (invoked tr1) with
    | Some it' => Some it'
    | None => cur
    end = Some it /\
    target store it = Some (cb, a) /\ kw = context_passed it.
Proof.
  induction tr1 as [|ev tr1 IH]; intros cur; simpl.
  - intros [(it & a & Hc & Ht & Hk) _]. eauto.
  - destruct ev; simpl; try (by apply IH).
    + intros Hok. apply IH in Hok as (it & a & Hc & Ht & Hk).
      exists it, a. rewrite last_cons. destruct (list.last (invoked tr1)); auto.
    + intros Hok. apply IH in Hok as (it & a & Hc & Ht & Hk).
      exists it, a. rewrite last_cons. destruct (list.last (invoked tr1)); auto.
    + intros [_ Hok]. by apply IH.
Qed.

(** X2: whenever a step calls the exception handler, the call is about the
    item the step invoked last: the callback it names is the callback of
    that handle, or that selector callback, and the keyword context it
    passes is empty for a handle, whatever context the handle was created
    with, and [place], [fd] and [events] for a selector callback. *)
Theorem handler_context_by_origin (st : Loop) (tr1 tr2 : list event)
        (e : exn) (cb : cbid) (kw : mapping) :
  (run_step st).1.2 = tr1 ++ EvReport e cb kw :: tr2 ->
  exists it a,
    list.last (invoked tr1) = Some it /\
    target (handles (run_step st).1.1) it = Some (cb, a) /\
    kw = context_passed it.
Proof.
  destruct (run_step st) as [[st' tr] r] eqn:Hstep. simpl.
  apply run_step_shape in Hstep
    as (w & io & st0 & cv' & trd & -> & _ & _ & Hd & _ & _ & _).
  pose proof (dispatch_origin _ _ _ _ _ _ _ _ _ Hd None) as Hok.
  intros Htr.
  assert (Hok' : origin_ok (handles st') None (tr1 ++ EvReport e cb kw :: tr2))
    by (rewrite <- Htr; exact Hok).
  apply origin_ok_split in Hok' as (it & a & Hc & Ht & Hk).
  exists it, a. destruct (list.last (invoked tr1)); [auto|discriminate].
Qed.

(** *** Context variables from step to step *)

Lemma calls_ok_in vars (tr : list event) cb a c :
  calls_ok vars tr -> In (EvCall cb a c) tr -> _running_loop c = Some self.
Proof.
  revert vars. induction tr as [|ev tr IH]; intros vars; simpl; [intros _ []|].
  destruct ev; try (intros Hk [?|Hin]; [discriminate|by eapply IH]).
  intros [-> Hk] [[= _ _ <-]|Hin]; [reflexivity|by eapply IH].
Qed.

Lemma run_context (fuel : nat) : forall (st : Loop),
  (forall cb a c, In (EvCall cb a c) (run fuel st).1.2 -> _running_loop c = Some self) /\
  (forall v, In (EvRunningLoop v) (run fuel st).1.2 -> v = Some self).
Proof.
  induction fuel as [|fuel IH]; intros st; simpl; [split; intros; contradiction|].
  destruct (run_step st) as [[st1 tr1] r1] eqn:Hstep.
  apply run_step_sound in Hstep as (_ & _ & _ & Ca & Ob).
  assert (H1 : forall cb a c, In (EvCall cb a c) tr1 -> _running_loop c = Some self)
    by (intros; by eapply calls_ok_in).
  destruct r1 as [e|]; [simpl; auto|].
  destruct (received_fut st1); [simpl; auto|].
  specialize (IH st1). destruct (run fuel st1) as [[st2 tr2] res]. simpl in *.
  destruct IH as [IHc IHo].
  split; intros; match goal with
                 | Hin : In _ (_ ++ _) |- _ => apply in_app_or in Hin as [Hin|Hin]
                 end; eauto.
Qed.

(** X10: all along [run], every callable is called with [_running_loop]
    set to the loop and sees the loop there, and the thread's own context
    is left as it was; so a step starts again from the thread's context:
    what the callbacks of one step wrote to context variables is not there
    in the next. *)
Theorem context_from_step_to_step (st : Loop) (fuel : nat) :
  (forall cb a c, In (EvCall cb a c) (run fuel st).1.2 -> _running_loop c = Some self) /\
  (forall v, In (EvRunningLoop v) (run fuel st).1.2 -> v = Some self) /\
  thread_context (run fuel st).1.1 = thread_context st /\
  (forall tr1 cb a c tr2,
      (run_step (run_step st).1.1).1.2 = tr1 ++ EvCall cb a c :: tr2 ->
      c = mkContext (Some self) (writes tr1 ++ cvars (thread_context st))).
Proof.
  destruct (run_context fuel st) as [Hc Ho].
  split; [exact Hc|]. split; [exact Ho|]. split.
  - destruct (run fuel st) as [[st' tr] res] eqn:Hrun.
    apply run_sound in Hrun as ((T & _) & _). exact T.
  - destruct (run_step st) as [[st1 tr1] r1] eqn:Hstep1.
    apply run_step_sound in Hstep1 as ((T & _) & _). simpl.
    destruct (run_step st1) as [[st2 tr2] r2] eqn:Hstep2.
    apply run_step_sound in Hstep2 as (_ & _ & _ & Ca & _). simpl.
    intros tr1' cb a c tr2' ->. rewrite <- T. by eapply calls_ok_split.
Qed.

(** *** Creating and enqueuing *)

Lemma enqueued_app (a b : list event) : enqueued (a ++ b) = enqueued a ++ enqueued b.
Proof.
  induction a as [|ev a IH]; simpl; [reflexivity|].
  destruct ev; simpl; try assumption; by rewrite IH.
Qed.

Lemma creates_refl (st : Loop) : creates st st [].
Proof. unfold creates. split; [lia|]. by rewrite Nat.sub_diag. Qed.

Lemma creates_nil (st st' : Loop) :
  length (handles st') = length (handles st) -> creates st st' [].
Proof. unfold creates. intros ->. split; [lia|]. by rewrite Nat.sub_diag. Qed.

Lemma creates_trans (st st1 st2 : Loop) tr1 tr2 :
  creates st st1 tr1 -> creates st1 st2 tr2 -> creates st st2 (tr1 ++ tr2).
Proof.
  unfold creates. intros [L1 E1] [L2 E2]. split; [lia|].
  rewrite enqueued_app, E1, E2.
  replace (length (handles st2) - length (handles st))
    with ((length (handles st1) - length (handles st))
          + (length (handles st2) - length (handles st1))) by lia.
  rewrite seq_app. do 2 f_equal. lia.
Qed.

Lemma creates_same (st st' : Loop) ev :
  length (handles st') = length (handles st) -> enqueued [ev] = [] ->
  creates st st' [ev].
Proof.
  unfold creates. intros -> ->. split; [lia|]. by rewrite Nat.sub_diag.
Qed.

Lemma creates_one (st st' : Loop) (hd : Handle) :
  handles st' = handles st ++ [hd] ->
  creates st st' [EvEnqueue (length (handles st))].
Proof.
  unfold creates. intros ->. rewrite length_app. simpl. split; [lia|].
  by replace (length (handles st) + 1 - length (handles st)) with 1 by lia.
Qed.

Lemma creates_call_soon target a ctx (st : Loop) h st' tr :
  call_soon target a ctx st = (h, st', tr) -> creates st st' tr.
Proof.
  unfold call_soon, new_handle, scheduler_enqueue. intros [= <- <- <-].
  by eapply creates_one.
Qed.

Lemma creates_call_later timeout target a ctx (st : Loop) h st' tr :
  call_later timeout target a ctx st = (h, st', tr) -> creates st st' tr.
Proof.
  unfold call_later. destruct (Qeq_bool timeout 0); [apply creates_call_soon|].
  unfold now, new_handle, scheduler_enqueue. intros [= <- <- <-].
  by eapply creates_one.
Qed.

Lemma creates_cancel h (st st' : Loop) tr :
  cancel_handle h st = (st', tr) -> creates st st' tr.
Proof.
  unfold cancel_handle. destruct (handles st !! h) as [hd|].
  - intros [= <- <-]. apply creates_same; [|reflexivity].
    simpl. by rewrite length_insert.
  - intros [= <- <-]. apply creates_refl.
Qed.

Lemma creates_event (st : Loop) ev :
  (forall x, ev <> EvEnqueue x) -> (forall h, ev <> EvCancel h) -> creates st st [ev].
Proof.
  intros He _. apply creates_same; [reflexivity|].
  destruct ev; try reflexivity. by destruct (He h).
Qed.

Lemma invoke_handles_creates hs cv (st : Loop) cv' st' tr r :
  invoke_handles hs cv st = (cv', st', tr, r) -> creates st st' tr.
Proof.
  apply (invoke_handles_kept creates);
    eauto using creates_refl, creates_trans, creates_call_soon, creates_call_later,
                creates_cancel, creates_event.
  - intros st0. by apply creates_nil.
  - intros st0. by apply creates_nil.
Qed.

Lemma invoke_io_creates cbs cv (st : Loop) cv' st' tr r :
  invoke_io cbs cv st = (cv', st', tr, r) -> creates st st' tr.
Proof.
  apply (invoke_io_kept creates);
    eauto using creates_refl, creates_trans, creates_call_soon, creates_call_later,
                creates_cancel, creates_event.
  - intros st0. by apply creates_nil.
  - intros st0. by apply creates_nil.
Qed.

Lemma run_step_creates (st : Loop) st' tr r :
  run_step st = (st', tr, r) -> creates st st' tr.
Proof.
  intros Hstep.
  apply run_step_shape in Hstep
    as (w & io & st0 & cv' & trd & -> & _ & _ & Hd & Hh & _ & _).
  assert (Hd' : creates st0 st' trd).
  { unfold dispatch in Hd.
    apply and_then_inv in Hd
      as [(e & He & ->)|(cv1 & st1 & tr_e & tr2 & He & Hd & ->)];
      apply invoke_handles_creates in He; [assumption|].
    eapply creates_trans; [exact He|].
    apply and_then_inv in Hd
      as [(e & Hi & ->)|(cv2 & st2 & tr_i & tr_l & Hi & Hl & ->)];
      apply invoke_io_creates in Hi; [assumption|].
    eapply creates_trans; [exact Hi|].
    unfold late_phase, scheduler_pop_pending in Hl.
    destruct (pop_pending _ (handles st2) (_scheduler st2)) as [late sch].
    apply emit_inv in Hl as (tr' & Hl & ->).
    apply invoke_handles_creates in Hl. exact Hl. }
  unfold creates in *. rewrite Hh in Hd'. exact Hd'.
Qed.

(** X12: during a step, and during [run], the handles passed to the
    scheduler's [enqueue] are exactly the handles created meanwhile, each
    once and in the order of their creation: no handle that existed before
    is enqueued again, none is created without being enqueued. *)
Theorem enqueued_once (st : Loop) (fuel : nat) :
  creates st (run_step st).1.1 (run_step st).1.2 /\
  creates st (run fuel st).1.1 (run fuel st).1.2.
Proof.
  split.
  - destruct (run_step st) as [[st' tr] r] eqn:Hstep. by eapply run_step_creates.
  - revert st. induction fuel as [|fuel IH]; intros st; simpl; [apply creates_refl|].
    destruct (run_step st) as [[st1 tr1] [e|]] eqn:Hstep;
      apply run_step_creates in Hstep; [assumption|].
    destruct (received_fut st1); [assumption|].
    specialize (IH st1). destruct (run fuel st1) as [[st2 tr2] res]. simpl in *.
    by eapply creates_trans.
Qed.

End EventLoop.

(** ** The loop over the heap scheduler *)

Section HeapLoop.
Context {Sel : Type} `{IOSelectorOps Sel}.
Variable _clock : Clock.
Variable body : cbid -> list nat -> prog.
Variable self : loop_id.

Import HeapScheduler.

Lemma insert_handles (e : entry) (q : list entry) (x : hid) :
  In x (map e_handle (insert e q)) <-> x = e_handle e \/ In x (map e_handle q).
Proof.
  induction q as [|y q IH]; simpl; [intuition|].
  destruct (key_leb y e); simpl; [rewrite IH|]; intuition.
Qed.

Lemma pop_subset up_to store (q : list entry) hs rest :
  pop up_to store q = (hs, rest) ->
  (forall x, In x hs -> In x (map e_handle q)) /\
  (forall x, In x (map e_handle rest) -> In x (map e_handle q)).
Proof.
  revert hs rest. induction q as [|e q IH]; intros hs rest; simpl.
  - intros [= <- <-]. auto.
  - destruct (deadline_leb (e_when e) (At up_to)).
    + destruct (pop up_to store q) as [hs' rest'] eqn:Hp.
      destruct (IH _ _ eq_refl) as [Hh Hr].
      destruct (is_cancelled store (e_handle e)); intros [= <- <-]; simpl;
        split; intuition.
    + intros [= <- <-]. simpl. split; [intros x []|auto].
Qed.

Lemma top_subset store (q : list entry) d rest :
  top store q = (d, rest) ->
  forall x, In x (map e_handle rest) -> In x (map e_handle q).
Proof.
  revert d rest. induction q as [|e q IH]; intros d rest; simpl.
  - intros [= <- <-]. auto.
  - destruct (is_cancelled store (e_handle e)).
    + intros Ht x Hin. right. eapply IH; eauto.
    + intros [= <- <-]. auto.
Qed.

Lemma grows_refl (st : Loop t Sel) : grows st st [].
Proof. unfold grows. split; [auto|]. split; [auto|]. intros ? []. Qed.

Lemma grows_trans (st st1 st2 : Loop t Sel) tr1 tr2 :
  grows st st1 tr1 -> grows st1 st2 tr2 -> grows st st2 (tr1 ++ tr2).
Proof.
  intros (W1 & Q1 & E1) (W2 & Q2 & E2). unfold grows.
  split; [auto|]. split; [auto|].
  intros x Hin. apply in_app_or in Hin as [Hin|Hin]; auto.
Qed.

Lemma grows_new (hd : Handle) (st : Loop t Sel) :
  let x := length (handles st) in
  grows st (mkLoop (handles st ++ [hd])
                   (heap_enqueue x (handles st ++ [hd]) (_scheduler st))
                   (_selector st) (clock_reads st) (thread_context st)
                   (received_fut st))
        [EvEnqueue x].
Proof.
  intros x. unfold grows, wf, heap_enqueue, queued; simpl.
  rewrite list_lookup_middle by reflexivity. simpl.
  rewrite length_app. simpl.
  split; [|split].
  - intros Hwf y Hin. apply insert_handles in Hin as [->|Hin]; simpl.
    + subst x. lia.
    + specialize (Hwf _ Hin). lia.
  - intros y Hin. apply insert_handles. auto.
  - intros y [[= <-]|[]]. apply insert_handles. auto.
Qed.

Lemma grows_call_soon target a ctx (st : Loop t Sel) h st' tr :
  call_soon target a ctx st = (h, st', tr) -> grows st st' tr.
Proof.
  unfold call_soon, new_handle, scheduler_enqueue. simpl.
  intros [= <- <- <-]. apply grows_new.
Qed.

Lemma grows_same (st st' : Loop t Sel) :
  _scheduler st' = _scheduler st -> length (handles st') = length (handles st) ->
  grows st st' [].
Proof.
  intros Hs Hl. unfold grows, wf. rewrite Hs, Hl.
  split; [auto|]. split; [auto|]. intros ? [].
Qed.

Lemma grows_call_later timeout target a ctx (st : Loop t Sel) h st' tr :
  call_later _clock timeout target a ctx st = (h, st', tr) -> grows st st' tr.
Proof.
  unfold call_later. destruct (Qeq_bool timeout 0); [apply grows_call_soon|].
  unfold new_handle, scheduler_enqueue. simpl. intros [= <- <- <-].
  change [EvEnqueue (length (handles st))]
    with ([] ++ [EvEnqueue (length (handles (now _clock st).2))]).
  eapply grows_trans; [apply (grows_same st (now _clock st).2); reflexivity|].
  apply (grows_new _ (now _clock st).2).
Qed.

Lemma grows_cancel h (st st' : Loop t Sel) tr :
  cancel_handle h st = (st', tr) -> grows st st' tr.
Proof.
  unfold cancel_handle. destruct (handles st !! h) as [hd|].
  - intros [= <- <-]. unfold grows, wf; simpl. rewrite length_insert.
    split; [auto|]. split; [auto|]. intros x [?|[]]. discriminate.
  - intros [= <- <-]. apply grows_refl.
Qed.

Lemma grows_event (st : Loop t Sel) ev :
  (forall x, ev <> EvEnqueue x) -> (forall h, ev <> EvCancel h) -> grows st st [ev].
Proof.
  intros He _. unfold grows. split; [auto|]. split; [auto|].
  intros x [->|[]]. by destruct (He x).
Qed.

Lemma invoke_handles_grows hs cv (st : Loop t Sel) cv' st' tr r :
  invoke_handles _clock body self hs cv st = (cv', st', tr, r) -> grows st st' tr.
Proof.
  apply (invoke_handles_kept _clock body self grows);
    eauto using grows_refl, grows_trans, grows_call_soon, grows_call_later,
                grows_cancel, grows_event.
  - intros st0. apply grows_same; reflexivity.
  - intros st0. apply grows_same; reflexivity.
Qed.

Lemma invoke_io_grows cbs cv (st : Loop t Sel) cv' st' tr r :
  invoke_io _clock body self cbs cv st = (cv', st', tr, r) -> grows st st' tr.
Proof.
  apply (invoke_io_kept _clock body self grows);
    eauto using grows_refl, grows_trans, grows_call_soon, grows_call_later,
                grows_cancel, grows_event.
  - intros st0. apply grows_same; reflexivity.
  - intros st0. apply grows_same; reflexivity.
Qed.

(** The late phase does defer: a handle enqueued by [call_soon] (or
    [call_later]) from a callback of the late phase, that is after the
    step's post-select [pop_pending], is not invoked in that step; when the
    step ends it is still in the scheduler's queue, left for a later
    step. *)
Theorem call_soon_in_late_phase (st : Loop t Sel) (x : hid) :
  wf st ->
  In (EvEnqueue x) (late_events (run_step _clock body self st).1.2) ->
  ~ In (EvInvoke x) (run_step _clock body self st).1.2 /\
  In x (queued (_scheduler (run_step _clock body self st).1.1)).
Proof.
  intros Hwf.
  destruct (run_step _clock body self st) as [[st' tr] r] eqn:Hstep. simpl.
  apply run_step_shape in Hstep
    as (w & io & st0 & cv' & trd & -> & _ & _ & Hd & Hh & _ & Hs).
  unfold late_events. simpl. intros Hin.
  apply dispatch_inv in Hd
    as [Hnil|(tr_e & tr_i & cv1 & st1 & cv2 & st2 & tr_late & He & Hi & Hl & -> & Haft)];
    [rewrite Hnil in Hin; destruct Hin|].
  rewrite Haft in Hin.
  (* the queue before dispatching is part of the queue the step began with *)
  unfold step_next_event, step_early in *. simpl in *.
  unfold heap_next_event, heap_pop_pending in *.
  destruct (pop _ (handles st) (queue (_scheduler st))) as [early rest] eqn:Hpop.
  simpl in *.
  destruct (top (handles st) rest) as [d rest'] eqn:Htop. simpl in *.
  destruct (pop_subset _ _ _ _ _ Hpop) as [Hearly Hrest].
  pose proof (top_subset _ _ _ _ Htop) as Hrest'.
  assert (Hwf0 : wf st0).
  { intros y Hy. rewrite Hh. apply Hwf. unfold queued in *. rewrite Hs in Hy.
    simpl in Hy. auto. }
  pose proof (invoke_handles_grows _ _ _ _ _ _ _ He) as (W1 & _ & _).
  pose proof (invoke_io_grows _ _ _ _ _ _ _ Hi) as (W2 & _ & _).
  pose proof (invoke_handles_evolves _ _ _ _ _ _ _ _ _ _ He) as (_ & L1 & _).
  pose proof (invoke_io_evolves _ _ _ _ _ _ _ _ _ _ Hi) as (_ & L2 & _).
  pose proof (invoke_handles_grows _ _ _ _ _ _ _ Hl) as (_ & _ & E3).
  pose proof (invoke_handles_evolves _ _ _ _ _ _ _ _ _ _ Hl) as (_ & _ & _ & _ & N3).
  specialize (N3 _ Hin). simpl in N3.
  assert (Hwf2 : wf st2) by auto.
  destruct (pop _ (handles st2) (queue (_scheduler st2))) as [late rest2] eqn:Hpop2.
  simpl in *.
  destruct (pop_subset _ _ _ _ _ Hpop2) as [Hlate _].
  split; [|by apply E3].
  intros [?|[?|Hinv]]; [discriminate|discriminate|].
  apply in_app_or in Hinv as [Hinv|Hinv].
  { eapply invoke_handles_only in Hinv; [|exact He].
    apply Hearly, Hwf in Hinv. rewrite Hh in L1. lia. }
  apply in_app_or in Hinv as [Hinv|Hinv].
  { by eapply invoke_io_no_handle in Hinv. }
  destruct Hinv as [?|Hinv]; [discriminate|].
  eapply invoke_handles_only in Hinv; [|exact Hl].
  apply Hlate, Hwf2 in Hinv. lia.
Qed.

End HeapLoop.

(** ** Properties of [Handle] *)

Lemma cancel_iter_S (n : nat) (h : Handle) :
  Nat.iter (S n) cancel h = cancel h.
Proof.
  induction n as [|n IH]; [reflexivity|].
  change (Nat.iter (S (S n)) cancel h) with (cancel (Nat.iter (S n) cancel h)).
  rewrite IH. reflexivity.
Qed.

(** C10: [cancel] is idempotent and writes only the [cancelled] flag: after
    one or more calls the flag is [True] and [when], [callback], [args] and
    [context] are those the handle was built with. *)
Theorem handle_cancel_idempotent_frame :
  forall (n : nat) (w : option Q) (cb : cbid) (a : list nat) (c : bool)
         (m : mapping),
    let h := mkHandle w cb a c m in
    let h' := Nat.iter (S n) cancel h in
    cancel (cancel h) = cancel h /\
    cancelled h' = true /\
    when h' = w /\ callback h' = cb /\ args h' = a /\ context h' = m.
Proof.
  intros n w cb a c m h h'. subst h'. rewrite cancel_iter_S.
  repeat split.
Qed.

(** ** Properties of [create_networking] *)

Lemma uses_cached (factory : nat -> Net.networking) (us : list Net.use) :
  forall (l : Net.state) (n : Net.networking),
    Net._cached_networking l = Some n ->
    Forall (eq n) (Net.uses factory us l).1 /\
    Net._cached_networking (Net.uses factory us l).2 = Some n /\
    Net.factory_entered (Net.uses factory us l).2 = Net.factory_entered l /\
    Net.factory_exited (Net.uses factory us l).2 = Net.factory_exited l.
Proof.
  induction us as [|[|] us IH]; intros l n Hc; simpl.
  - auto.
  - unfold Net.enter. rewrite Hc.
    destruct (IH l n Hc) as (Hall & Hc' & He & Hx).
    destruct (Net.uses factory us l) as [ns l2]. simpl in *. auto.
  - apply IH. assumption.
Qed.

(** C4 (as amended): the Networking instance is created lazily, by the
    first [create_networking] entered while none is cached, and it is the
    one every [create_networking] entered while that context is open
    yields, the factory not being called again; leaving that context clears
    the cache and leaves the factory's context, and the next
    [create_networking] has the factory build another instance. *)
Theorem networking_cached_while_open (factory : nat -> Net.networking)
        (l : Net.state) (us : list Net.use) :
  Net._cached_networking l = None ->
  let n := (Net.enter factory l).1.1 in
  let l1 := (Net.enter factory l).2 in
  let l2 := (Net.uses factory us l1).2 in
  let l3 := Net.leave (Net.enter factory l).1.2 l2 in
  n = factory (Net.factory_entered l) /\
  Net.factory_entered l1 = S (Net.factory_entered l) /\
  Forall (eq n) (Net.uses factory us l1).1 /\
  Net._cached_networking l2 = Some n /\
  Net.factory_entered l2 = Net.factory_entered l1 /\
  Net._cached_networking l3 = None /\
  Net.factory_exited l3 = S (Net.factory_exited l) /\
  (Net.enter factory l3).1.1 = factory (S (Net.factory_entered l)).
Proof.
  intros Hc.
  assert (Henter : Net.enter factory l
                   = (factory (Net.factory_entered l), Net.AtFactory,
                      Net.mk (Some (factory (Net.factory_entered l)))
                             (S (Net.factory_entered l)) (Net.factory_exited l)))
    by (unfold Net.enter; by rewrite Hc).
  rewrite Henter. simpl.
  set (n := factory (Net.factory_entered l)).
  set (l1 := Net.mk (Some n) (S (Net.factory_entered l)) (Net.factory_exited l)).
  destruct (uses_cached factory us l1 n eq_refl) as (Hall & Hc2 & He & Hx).
  split; [reflexivity|]. split; [reflexivity|]. split; [assumption|].
  split; [assumption|]. split; [assumption|]. split; [reflexivity|].
  split; [by rewrite Hx|].
  unfold Net.enter. simpl. by rewrite He.
Qed.

(** C4, witness: one context open, entered twice more and left once
    meanwhile. *)
Lemma networking_cached_while_open_witness :
  Net._cached_networking (Net.mk None 0 0) = None /\
  Forall (eq 0)
    (Net.uses (fun k => k) [Net.Enter; Net.Leave; Net.Enter]
       (Net.enter (fun k => k) (Net.mk None 0 0)).2).1 /\
  (Net.uses (fun k => k) [Net.Enter; Net.Leave; Net.Enter]
     (Net.enter (fun k => k) (Net.mk None 0 0)).2).1 = [0; 0].
Proof.
  split; [reflexivity|]. split; [|reflexivity].
  exact (proj1 (proj2 (proj2
    (networking_cached_while_open (fun k => k) (Net.mk None 0 0)
       [Net.Enter; Net.Leave; Net.Enter] eq_refl)))).
Defined.

(** C4, as the spec has it, fails: with a factory that builds a new
    instance at each call, a [create_networking] entered after the first
    context was left yields another instance than the first. *)
Lemma networking_not_reused_after_exit :
  let factory := fun k : nat => k in
  let first := Net.enter factory (Net.mk None 0 0) in
  let second := Net.enter factory (Net.leave first.1.2 first.2) in
  first.1.1 = 0 /\ second.1.1 = 1 /\ first.1.1 <> second.1.1.
Proof. simpl. repeat split. discriminate. Qed.

(** ** The sample loops are what the loop's own methods build *)

Lemma sample_loops_built :
  (call_soon 1 [] None fresh_loop).1.2 = soon_loop /\
  (call_later sample_clock (3 # 2) 1 [] None fresh_loop).1.2 = late_loop /\
  (call_soon 2 [] None (call_soon 3 [] None fresh_loop).1.2).1.2 = cancelling_loop /\
  (cancel_handle 0 (call_soon 2 [] None fresh_loop).1.2).1 = cancelled_loop /\
  (call_soon 2 [] None
     (call_soon 4 [] (Some [("task"%string, VInt 7)]) fresh_loop).1.2).1.2
    = raising_loop /\
  (call_soon 2 [] None (call_soon 5 [] None fresh_loop).1.2).1.2 = interrupted_loop /\
  (call_soon 6 [] None (call_soon 6 [] None fresh_loop).1.2).1.2 = writing_loop.
Proof. repeat split. Qed.

(** ** The step on the sample loops *)

(** C1, as the spec has it, fails: with nothing scheduled and a watch
    registered, [select] is passed [None], where the spec's third case asks
    for [max(0, next_event - now)]. *)
Lemma select_budget_ignores_registrations :
  let st := watching_loop in
  let tr := (run_step sample_clock sample_body sample_loop_id st).1.2 in
  registered (_selector st) = true /\
  (step_early sample_clock st).1 = [] /\
  (step_next_event sample_clock st).1 = None /\
  select_timeouts tr = [None] /\
  ~ budget_as_specified (step_early sample_clock st).1
      (step_next_event sample_clock st).1 (registered (_selector st))
      (now_reading sample_clock 1) None.
Proof.
  repeat split. intros (d & Hd & _). discriminate.
Qed.

(** C3, at the failing input: [call_soon] ("Enqueuing callback for next
    cycle") is called by a callback of the early batch; the handle it
    creates is popped after the [select] and invoked in the same step. *)
Lemma call_soon_runs_in_same_step :
  let tr := (run_step sample_clock sample_body sample_loop_id soon_loop).1.2 in
  HeapScheduler.wf soon_loop /\
  In (EvEnqueue 1) tr /\ In (EvInvoke 1) tr /\
  ~ call_soon_deferred tr.
Proof.
  assert (He : In (EvEnqueue 1)
                 (run_step sample_clock sample_body sample_loop_id soon_loop).1.2)
    by (vm_compute; tauto).
  assert (Hi : In (EvInvoke 1)
                 (run_step sample_clock sample_body sample_loop_id soon_loop).1.2)
    by (vm_compute; tauto).
  split; [|split; [exact He|split; [exact Hi|]]].
  - intros x [<-|[]]. simpl. lia.
  - intros Hc. exact (Hc 1 He Hi).
Qed.

(** The late phase on a sample loop: the callback of a timer that falls
    due during the [select] calls [call_soon]. *)
Lemma call_soon_in_late_phase_witness :
  HeapScheduler.wf late_loop /\
  In (EvEnqueue 1)
     (late_events (run_step sample_clock sample_body sample_loop_id late_loop).1.2) /\
  ~ In (EvInvoke 1) (run_step sample_clock sample_body sample_loop_id late_loop).1.2 /\
  In 1 (HeapScheduler.queued
          (_scheduler (run_step sample_clock sample_body sample_loop_id late_loop).1.1)).
Proof.
  assert (Hwf : HeapScheduler.wf late_loop) by (intros x [<-|[]]; simpl; lia).
  assert (Hin : In (EvEnqueue 1)
                  (late_events
                     (run_step sample_clock sample_body sample_loop_id late_loop).1.2))
    by (vm_compute; tauto).
  split; [exact Hwf|]. split; [exact Hin|].
  exact (call_soon_in_late_phase sample_clock sample_body sample_loop_id
           late_loop 1 Hwf Hin).
Defined.

(** C5, witness: a handle cancelled before the step, and a handle cancelled
    by the callback dispatched just before it. *)
Lemma cancelled_never_invoked_witness :
  is_cancelled (handles cancelled_loop) 0 = true /\
  ~ In (EvInvoke 0)
      (run_step sample_clock sample_body sample_loop_id cancelled_loop).1.2 /\
  (exists tr1 tr2,
      (run_step sample_clock sample_body sample_loop_id cancelling_loop).1.2
        = tr1 ++ EvCancel 1 :: tr2 /\
      In (EvSkip 1) tr2 /\ ~ In (EvInvoke 1) tr2).
Proof.
  split; [reflexivity|]. split.
  - exact (proj1 (proj2 (proj1
      (cancelled_never_invoked sample_clock sample_body sample_loop_id
         cancelled_loop 0) eq_refl))).
  - set (tr := (run_step sample_clock sample_body sample_loop_id cancelling_loop).1.2).
    exists (firstn 4 tr), (skipn 5 tr).
    assert (Hsplit : tr = firstn 4 tr ++ EvCancel 1 :: skipn 5 tr)
      by (vm_compute; reflexivity).
    split; [exact Hsplit|]. split; [vm_compute; tauto|].
    exact (proj1 (proj2
      (cancelled_never_invoked sample_clock sample_body sample_loop_id
         cancelling_loop 1)) (firstn 4 tr) (skipn 5 tr) Hsplit).
Defined.

(** C6, at the failing input: the handle was created with the context
    [{"task": 7}]; its callback raises an [Exception]; the handler is called
    once, with the callback and no context; the step goes on to the next
    handle and returns. *)
Lemma handle_context_not_forwarded :
  let out := run_step sample_clock sample_body sample_loop_id raising_loop in
  context <$> handles raising_loop !! 0 = Some [("task"%string, VInt 7)] /\
  reports out.1.2 = [(Exc 0, 4, [])] /\
  seen out.1.2 = [Timer 0; Timer 1] /\
  In (EvInvoke 1) out.1.2 /\
  out.2 = None.
Proof. vm_compute. repeat split. tauto. Qed.

(** C7, witness: a callback raises [KeyboardCanceled]. *)
Lemma base_exception_propagates_witness :
  let st := interrupted_loop in
  In (EvReport KeyboardCanceled 5 [])
     (run_step sample_clock sample_body sample_loop_id st).1.2 /\
  is_Exception KeyboardCanceled = false /\
  (run_step sample_clock sample_body sample_loop_id st).2 = Some KeyboardCanceled /\
  (run sample_clock sample_body sample_loop_id 3 st).2 = RunRaised KeyboardCanceled /\
  ~ In (EvInvoke 1) (run_step sample_clock sample_body sample_loop_id st).1.2.
Proof.
  intros st.
  assert (Hin : In (EvReport KeyboardCanceled 5 [])
                  (run_step sample_clock sample_body sample_loop_id st).1.2)
    by (vm_compute; tauto).
  destruct (proj1 (proj2 (proj2
    (base_exception_propagates sample_clock sample_body sample_loop_id)))
    st KeyboardCanceled 5 [] Hin eq_refl) as (Hr & _ & Hrun).
  split; [exact Hin|]. split; [reflexivity|]. split; [exact Hr|].
  split; [exact (Hrun 2)|].
  vm_compute. intuition discriminate.
Defined.

(** C8, witness: a delay of zero and a delay of a second and a half. *)
Lemma call_later_deadline_witness :
  call_later sample_clock 0 1 [] None fresh_loop = call_soon 1 [] None fresh_loop /\
  when <$> handles (call_later sample_clock (3 # 2) 1 [] None fresh_loop).1.2 !! 0
    = Some (Some (0 + (3 # 2))%Q) /\
  when <$> handles (call_soon 1 [] None fresh_loop).1.2 !! 0 = Some None.
Proof.
  split.
  - apply (proj1 (proj2
      (call_later_deadline sample_clock fresh_loop 0 1 [] None))).
    reflexivity.
  - destruct (proj2 (proj2
      (call_later_deadline sample_clock fresh_loop (3 # 2) 1 [] None)))
      as (st' & Hcall & Hh & _); [discriminate|].
    split; [rewrite Hcall; simpl; rewrite Hh; reflexivity|reflexivity].
Defined.

(** C9, witness: two callbacks that each write a context variable and look
    up the running loop: the second runs in a context that has the write of
    the first. *)
Lemma callbacks_run_in_step_context_witness :
  let st := writing_loop in
  let tr := (run_step sample_clock sample_body sample_loop_id st).1.2 in
  (exists tr1 tr2,
      tr = tr1 ++ EvCall 6 [] (mkContext (Some sample_loop_id) [(0, 42)]) :: tr2 /\
      writes tr1 = [(0, 42)]) /\
  (In (EvRunningLoop (Some sample_loop_id)) tr) /\
  thread_context (run_step sample_clock sample_body sample_loop_id st).1.1
    = mkContext None [].
Proof.
  intros st tr.
  destruct (proj2 (callbacks_run_in_step_context sample_clock sample_body
                     sample_loop_id) st) as (Hcall & Hobs & Hthread).
  split; [|split].
  - exists (firstn 7 tr), (skipn 8 tr).
    assert (Hc : exists c, tr = firstn 7 tr ++ EvCall 6 [] c :: skipn 8 tr)
      by (eexists; vm_compute; reflexivity).
    destruct Hc as [c Hc].
    pose proof (Hcall _ _ _ _ _ Hc) as ->.
    split; [exact Hc|reflexivity].
  - vm_compute. tauto.
  - rewrite Hthread. reflexivity.
Defined.

(** ** Further properties of [create_networking] *)

Lemma owners_app (a b : list Net.suspended) :
  Net.owners (a ++ b) = Net.owners a + Net.owners b.
Proof.
  induction a as [|[|] a IH]; simpl; [reflexivity|assumption|by rewrite IH].
Qed.

Lemma owners_delete (opened : list Net.suspended) : forall i g,
  opened !! i = Some g ->
  Net.owners opened
    = Net.owners (delete i opened) + match g with
                                     | Net.AtFactory => 1
                                     | Net.AtCached => 0
                                     end.
Proof.
  induction opened as [|g0 opened IH]; intros [|i] g Hl; try discriminate.
  - injection Hl as ->. destruct g; simpl; lia.
  - simpl in Hl. specialize (IH _ _ Hl). destruct g0; simpl; lia.
Qed.

Lemma balanced_enter (factory : nat -> Net.networking)
      (opened : list Net.suspended) (l : Net.state) :
  Net.balanced factory opened l ->
  Net.balanced factory (opened ++ [(Net.enter factory l).1.2])
               (Net.enter factory l).2.
Proof.
  unfold Net.balanced, Net.enter. intros [He Hc].
  destruct (Net._cached_networking l) as [n|] eqn:Hcache; simpl;
    rewrite ?Hcache, owners_app; simpl.
  - destruct Hc as [Ho Hn]. split; [lia|]. split; [lia|assumption].
  - split; [lia|]. split; [lia|reflexivity].
Qed.

Lemma balanced_leave (factory : nat -> Net.networking)
      (opened : list Net.suspended) (l : Net.state) (i : nat) (g : Net.suspended) :
  opened !! i = Some g ->
  Net.balanced factory opened l ->
  Net.balanced factory (delete i opened) (Net.leave g l).
Proof.
  intros Hl [He Hc]. pose proof (owners_delete _ _ _ Hl) as Ho.
  unfold Net.balanced. destruct g; simpl.
  - destruct (Net._cached_networking l) as [n|].
    + destruct Hc as [Hone Hn]. split; [lia|]. split; [lia|assumption].
    + split; lia.
  - destruct (Net._cached_networking l) as [n|].
    + destruct Hc as [Hone Hn]. split; lia.
    + lia.
Qed.

Lemma drive_balanced (factory : nat -> Net.networking) (ops : list Net.op) :
  forall (opened : list Net.suspended) (l : Net.state),
    Net.balanced factory opened l ->
    Net.balanced factory (Net.drive factory ops opened l).1
                 (Net.drive factory ops opened l).2.
Proof.
  induction ops as [|[|i] ops IH]; intros opened l Hb; simpl; [assumption| |].
  - pose proof (balanced_enter factory opened l Hb) as Hb'.
    destruct (Net.enter factory l) as [[n g] l1]. simpl in Hb'. by apply IH.
  - destruct (opened !! i) as [g|] eqn:Hl; [|by apply IH].
    apply IH. by apply balanced_leave.
Qed.

(** X7: however tasks enter and leave [create_networking], the contexts of
    the factory never overlap: at most one is open at any time, one is open
    exactly when an instance is cached, and the cached instance is the last
    one the factory built. *)
Theorem factory_contexts_never_overlap (factory : nat -> Net.networking)
        (ops : list Net.op) (opened : list Net.suspended) (l : Net.state) :
  Net.balanced factory opened l ->
  Net.balanced factory (Net.drive factory ops opened l).1
               (Net.drive factory ops opened l).2 /\
  Net.owners (Net.drive factory ops opened l).1 <= 1.
Proof.
  intros Hb. pose proof (drive_balanced factory ops opened l Hb) as Hd.
  split; [exact Hd|]. destruct Hd as [_ Hc].
  destruct (Net._cached_networking (Net.drive factory ops opened l).2);
    [destruct Hc|]; lia.
Qed.

(** X7, witness: two tasks enter, the one that created the instance leaves
    first, a third enters. *)
Lemma factory_contexts_never_overlap_witness :
  Net.balanced (fun k => k) [] (Net.mk None 0 0) /\
  Net.owners
    (Net.drive (fun k => k) [Net.Open; Net.Open; Net.Close 0; Net.Open] []
       (Net.mk None 0 0)).1 <= 1 /\
  (Net.drive (fun k => k) [Net.Open; Net.Open; Net.Close 0; Net.Open] []
     (Net.mk None 0 0))
    = ([Net.AtCached; Net.AtFactory], Net.mk (Some 1) 2 1).
Proof.
  assert (Hb : Net.balanced (fun k => k) [] (Net.mk None 0 0))
    by (split; reflexivity).
  split; [exact Hb|]. split; [|reflexivity].
  exact (proj2 (factory_contexts_never_overlap (fun k => k)
                  [Net.Open; Net.Open; Net.Close 0; Net.Open] [] _ Hb)).
Defined.

(** ** Properties of [_report_loop_callback_error] *)

(** X8: the handler logs one error, last, whatever it is given: about the
    task if one is given, else about the future if one is given, else about
    the callback; a warning comes before it exactly when the exception is
    not an [Exception]; every record carries the logger's context and the
    keyword context. *)
Theorem report_logs_one_error (exc : exn) (cb : option cbid)
        (task future : option nat) (logger context : log_context) :
  let rs := _report_loop_callback_error exc cb task future logger context in
  exists warned err,
    rs = warned ++ [err] /\
    lvl err = Error /\
    length warned = (if is_Exception exc then 0 else 1) /\
    Forall (fun r => lvl r = Warning /\ msg r = MsgNotException) warned /\
    (forall t, task = Some t -> msg err = MsgTask t) /\
    (forall f, task = None -> future = Some f -> msg err = MsgFuture f) /\
    (task = None -> future = None -> msg err = MsgCallback cb) /\
    Forall (fun r => (logger ++ context) `prefix_of` bound r) rs.
Proof.
  intros rs. subst rs. unfold _report_loop_callback_error.
  set (lg := match cb with
             | Some c => (logger ++ context) ++ [("callback"%string, LCallable c)]
             | None => logger ++ context
             end).
  assert (Hp : (logger ++ context) `prefix_of` lg).
  { subst lg. destruct cb; [by eexists|reflexivity]. }
  set (warned := if is_Exception exc then []
                 else [mkLog Warning MsgNotException lg
                             [("exc_info"%string, LExc exc)]]).
  assert (Hw : length warned = (if is_Exception exc then 0 else 1) /\
               Forall (fun r => lvl r = Warning /\ msg r = MsgNotException) warned /\
               Forall (fun r => (logger ++ context) `prefix_of` bound r) warned).
  { subst warned. destruct (is_Exception exc); simpl; repeat constructor; auto. }
  destruct Hw as (Hlen & Hall & Hbound).
  destruct task as [t|]; [|destruct future as [f|]]; eexists warned, _;
    (split; [reflexivity|]); simpl;
    (split; [reflexivity|]); (split; [exact Hlen|]); (split; [exact Hall|]);
    (split; [intros ? [= <-] || intros ? [=]; reflexivity|]);
    (split; [intros f' ? Hf; try discriminate; try (injection Hf as <-); reflexivity|]);
    (split; [intros ? ?; try discriminate; reflexivity|]);
    apply Forall_app; (split; [exact Hbound|]); repeat constructor; exact Hp.
Qed.

(** X9: called as the loop calls it, with the callback passed by keyword,
    the default handler never reports about a task or a future: its one
    error is the one about the callback, its message names [None] for the
    callback, and the callback is in the bound context under the key
    [cb]. *)
Theorem default_handler_names_no_callback (logger : log_context) (err : exn)
        (callback : cbid) (callback_context : mapping) :
  exists warned bound,
    default_exception_handler logger err callback callback_context
      = warned ++ [mkLog Error (MsgCallback None) bound
                         [("exc_info"%string, LExc err)]] /\
    Forall (fun r => lvl r = Warning) warned /\
    In ("cb"%string, LCallable callback) bound /\
    forall k v, In (k, v) callback_context -> In (k, LVal v) bound.
Proof.
  unfold default_exception_handler, _report_loop_callback_error.
  eexists _, _. split; [reflexivity|]. split; [|split].
  - destruct (is_Exception err); repeat constructor.
  - apply in_or_app. right. by left.
  - intros k v Hin. apply in_or_app. right. right.
    apply in_map_iff. by exists (k, v).
Qed.

(** ** The further properties on the sample loops *)

(** X2, witness: the same callable fails as the callback of a handle that
    was created with a context, and as a selector callback; the handler is
    passed no context the first time, [place], [fd] and [events] the
    second. *)
Lemma handler_context_by_origin_witness :
  let tr := (run_step sample_clock sample_body sample_loop_id failing_io_loop).1.2 in
  reports tr = [(Exc 0, 4, []); (Exc 0, 4, io_context 3 1)] /\
  (exists tr2, tr = firstn 4 tr ++ EvReport (Exc 0) 4 [] :: tr2 /\
               list.last (invoked (firstn 4 tr)) = Some (Timer 0)) /\
  (exists kw tr2 it a,
      tr = firstn 7 tr ++ EvReport (Exc 0) 4 kw :: tr2 /\
      list.last (invoked (firstn 7 tr)) = Some it /\ it = Io (4, 3, 1) /\
      target (handles (run_step sample_clock sample_body sample_loop_id
                         failing_io_loop).1.1) it = Some (4, a) /\
      kw = context_passed it).
Proof.
  intros tr. split; [reflexivity|]. split.
  - exists (skipn 5 tr). split; reflexivity.
  - assert (Hsplit : tr = firstn 7 tr ++ EvReport (Exc 0) 4 (io_context 3 1)
                                :: skipn 8 tr) by reflexivity.
    destruct (handler_context_by_origin sample_clock sample_body sample_loop_id
                failing_io_loop _ _ _ _ _ Hsplit) as (it & a & Hl & Ht & Hk).
    exists (io_context 3 1), (skipn 8 tr), it, a.
    split; [exact Hsplit|]. split; [exact Hl|]. split; [|split; assumption].
    vm_compute in Hl. by injection Hl as <-.
Defined.

(** X4, witness: a timer that is already late when the wait is computed *)
Lemma select_timeout_nonnegative_witness :
  In (EvSelect (Some 0%Q) [])
     (run_step sample_clock sample_body sample_loop_id late_loop).1.2 /\
  (0 <= 0)%Q.
Proof.
  assert (Hsel : In (EvSelect (Some 0%Q) [])
                    (run_step sample_clock sample_body sample_loop_id late_loop).1.2)
    by (vm_compute; tauto).
  split; [exact Hsel|].
  exact (select_timeout_nonnegative sample_clock sample_body sample_loop_id
           late_loop _ _ Hsel).
Defined.

(** X10, witness: the second step of the loop whose callbacks write a
    context variable. *)
Lemma context_from_step_to_step_witness :
  let st := queued_loop [mkHandle None 6 [] false []] in
  let st2 := (run_step sample_clock sample_body sample_loop_id
                (call_soon 6 [] None
                   (run_step sample_clock sample_body sample_loop_id st).1.1).1.2) in
  writes (run_step sample_clock sample_body sample_loop_id st).1.2 = [(0, 42)] /\
  In (EvCall 6 [] (mkContext (Some sample_loop_id) [])) st2.1.2 /\
  (forall cb a c,
      In (EvCall cb a c) (run sample_clock sample_body sample_loop_id 2 st).1.2 ->
      _running_loop c = Some sample_loop_id).
Proof.
  intros st st2. split; [reflexivity|]. split; [vm_compute; tauto|].
  exact (proj1 (context_from_step_to_step sample_clock sample_body sample_loop_id
                  st 2)).
Defined.
